(** * Parser combinators over text and bit streams (parser_combinators.py)

    A shallow embedding of the combinator engine of [parser_combinators.py]:
    the cursor class [ParserState], the [Parser] wrapper with its
    composition operators, the primitive matchers, the structural
    combinators, the bit-level numeric decoders and the IPv4 demonstration
    grammar, followed by the properties proved about them.

    The code is read twice.  The first reading treats a cursor as a value
    and a parser as a function from cursors to outcomes; it carries the
    functional properties.  The second reading (module [Store]) keeps the
    cursors in a heap and passes references, as the program does; it
    carries the property that no cursor is ever changed, and it is shown
    to agree with the first.

    Python exceptions are modelled by an explicit outcome type, and the
    [while True] loops of the repetition combinators take fuel.  The two
    decorators [curried] and [create_parser] only provide partial
    application, which Rocq functions have natively. *)

From Stdlib Require Import ZArith List String Ascii Lia Bool DecimalString.
From Stdlib.Strings Require Import Byte.
Import ListNotations.
Open Scope Z_scope.
#[local] Set Warnings "-register-all".

(** ** Python values *)

(** A Python [str] is the sequence of its code points. *)
Definition PyStr := list Z.

(** A string literal of the source (all of them are ASCII). *)
Definition lit (s : string) : PyStr :=
  map (fun c => Z.of_N (N_of_ascii c)) (list_ascii_of_string s).

(** [chr(i)]: the one-character string with code point [i]. *)
Definition chr (i : Z) : PyStr := [i].

(** [str(z)] for an integer: its decimal numeral. *)
Definition str_int (z : Z) : PyStr := lit (NilZero.string_of_int (Z.to_int z)).

(** [sep.join(parts)]. *)
Fixpoint join (sep : PyStr) (parts : list PyStr) : PyStr :=
  match parts with
  | [] => []
  | [s] => s
  | s :: rest => s ++ sep ++ join sep rest
  end.

(** The objects that travel in the [result] field of a cursor. *)
Inductive Value :=
| VNone
| VInt (z : Z)
| VStr (s : PyStr)
| VList (l : list Value)
| VTuple (l : list Value).

(** The value of a byte of a [bytes] object, an integer in [0, 256). *)
Definition byte_val (b : byte) : Z := Z.of_N (Byte.to_N b).

Definition byte_of_Z (z : Z) : byte :=
  match Byte.of_N (Z.to_N z) with Some b => b | None => x00 end.

(** ** Exceptions *)

(** [ParseError] is the library's mismatch, [EOFError] its end-of-input
    condition; every other exception class is kept by name. *)
Inductive Exc :=
| ParseError (msg : PyStr)
| EOFError (msg : PyStr)
| OtherError (cls : string).

Definition IndexError := OtherError "IndexError".
Definition TypeError := OtherError "TypeError".
Definition OverflowError := OtherError "OverflowError".
Definition UnicodeEncodeError := OtherError "UnicodeEncodeError".

Definition is_mismatch (e : Exc) : bool :=
  match e with ParseError _ => true | _ => false end.


(** The outcome of evaluating a Python expression. *)
Inductive Result (A : Type) :=
| Return (a : A)
| Throw (e : Exc).
Arguments Return {A} a.
Arguments Throw {A} e.

(** ** The cursor: class ParserState *)

(** The input buffer is a [str] (character mode) or a [bytes] object (bit
    mode). *)
Inductive Source :=
| Text (s : PyStr)
| Bytes (b : list byte).

Record ParserState := mkParserState {
  source : Source;
  index : Z;
  result : Value
}.

(** [ParserState.update]: a new cursor over the same source. *)
Definition update (self : ParserState) (index : Z) (result : Value) : ParserState :=
  mkParserState (source self) index result.

(** [len(source)]. *)
Definition len (s : Source) : Z :=
  match s with
  | Text t => Z.of_nat (List.length t)
  | Bytes b => Z.of_nat (List.length b)
  end.

(** Python subscripting [l[i]] of a sequence: a negative [i] counts from the
    end, and [None] stands for the [IndexError] outside [-len, len). *)
Definition py_nth {A : Type} (l : list A) (i : Z) : option A :=
  let n := Z.of_nat (List.length l) in
  if 0 <=? i then nth_error l (Z.to_nat i)
  else if 0 <=? n + i then nth_error l (Z.to_nat (n + i))
  else None.

(** [source[i]]: a one-character string of a [str], an integer of [bytes]. *)
Definition getitem (s : Source) (i : Z) : Result Value :=
  match s with
  | Text t =>
      match py_nth t i with
      | Some c => Return (VStr [c])
      | None => Throw IndexError
      end
  | Bytes b =>
      match py_nth b i with
      | Some x => Return (VInt (byte_val x))
      | None => Throw IndexError
      end
  end.

(** ** Parsers *)

(** What a call of a parser's [fn] does: it returns a cursor, raises, or
    does not return ([Diverge]: a [while True] loop of a repetition
    combinator that is still running when its fuel is used up). *)
Inductive Outcome :=
| Ok (st : ParserState)
| Raise (e : Exc)
| Diverge.

(** A [Parser] object is its [fn]. *)
Definition Parser := ParserState -> Outcome.

Definition EOF_MESSAGE : PyStr := lit "End of input reached, unable to match further.".

Module Parser.

(** [parse] builds the initial cursor and returns what [fn] returns. *)
Definition parse (self : Parser) (target : Source) : Outcome :=
  let initial_state := mkParserState target 0 VNone in
  self initial_state.

Definition chain (self : Parser) (chain_fn : Value -> Result Parser) : Parser :=
  fun parser_state =>
    match self parser_state with
    | Ok next_state =>
        match chain_fn (result next_state) with
        | Return next_parser => next_parser next_state
        | Throw e => Raise e
        end
    | Raise e => Raise e
    | Diverge => Diverge
    end.

Definition map (self : Parser) (map_fn : Value -> Result Value) : Parser :=
  fun parser_state =>
    match self parser_state with
    | Ok next_state =>
        match map_fn (result next_state) with
        | Return v => Ok (update next_state (index next_state) v)
        | Throw e => Raise e
        end
    | Raise e => Raise e
    | Diverge => Diverge
    end.

(** Only [ParseError] is caught; the handler gets the error (its message)
    and the index of the cursor the parser was applied to. *)
Definition error_map (self : Parser) (error_map_fn : PyStr -> Z -> Result Value) : Parser :=
  fun parser_state =>
    match self parser_state with
    | Ok next_state => Ok next_state
    | Raise (ParseError msg) =>
        match error_map_fn msg (index parser_state) with
        | Return v => Ok (update parser_state (index parser_state) v)
        | Throw e => Raise e
        end
    | Raise e => Raise e
    | Diverge => Diverge
    end.

End Parser.

(** ** Character primitives *)

(** [l[i:]]: a negative start counts from the end and the start is clipped
    to the sequence. *)
Definition slice_from {A : Type} (l : list A) (i : Z) : list A :=
  let n := Z.of_nat (List.length l) in
  skipn (Z.to_nat (if i <? 0 then Z.max (n + i) 0 else i)) l.

(** The property [ParserState.target]: [source[index:]]. *)
Definition target (self : ParserState) : Source :=
  match source self with
  | Text t => Text (slice_from t (index self))
  | Bytes b => Bytes (slice_from b (index self))
  end.

(** [s.startswith(prefix)] on strings. *)
Fixpoint startswith (s prefix : PyStr) : bool :=
  match prefix, s with
  | [], _ => true
  | _ :: _, [] => false
  | p :: prefix', c :: s' => (c =? p) && startswith s' prefix'
  end.

(** The double quote of the message of [string]. *)
Definition QUOTE : PyStr := chr 34.

(** [string(target)], for a [str] literal: on a [bytes] source
    [startswith] refuses a [str] argument. *)
Definition string (target_ : PyStr) : Parser :=
  fun parser_state =>
    if Z.of_nat (List.length target_) >? len (target parser_state) then
      Raise (EOFError EOF_MESSAGE)
    else
      match target parser_state with
      | Text t =>
          if startswith t target_ then
            Ok (update parser_state (index parser_state + Z.of_nat (List.length target_))
                  (VStr target_))
          else
            Raise (ParseError
              (QUOTE ++ firstn (List.length target_) t ++ QUOTE ++ lit " at index "
                 ++ str_int (index parser_state) ++ lit " does not start with "
                 ++ QUOTE ++ target_ ++ QUOTE ++ lit "."))
      | Bytes _ => Raise TypeError
      end.

(** [letter] and [digit] share their shape; [str.isalpha] and
    [str.isdigit] consult Python's Unicode tables, which the two matchers
    take as the parameter [is_class].  On a [bytes] source the first
    element is an integer, which has neither method. *)
Definition match_class (is_class : Z -> bool) (what : String.string) : Parser :=
  fun parser_state =>
    if len (target parser_state) =? 0 then Raise (EOFError EOF_MESSAGE)
    else
      match target parser_state with
      | Text (c :: _) =>
          if is_class c then Ok (update parser_state (index parser_state + 1) (VStr [c]))
          else
            Raise (ParseError (lit "Couldn't match " ++ lit what ++ lit " at index "
                                 ++ str_int (index parser_state) ++ lit "."))
      | Text [] => Raise IndexError
      | Bytes _ => Raise (OtherError "AttributeError")
      end.

Definition letter (isalpha : Z -> bool) : Parser := match_class isalpha "letters".

Definition digit (isdigit : Z -> bool) : Parser := match_class isdigit "digits".

(** ** Structural combinators *)

(** The [for] loop of [sequence_of], with its two loop variables. *)
Fixpoint sequence_of_loop (parsers : list Parser) (parser_state : ParserState)
    (results : list Value) : Outcome :=
  match parsers with
  | [] => Ok (update parser_state (index parser_state) (VList results))
  | p :: rest =>
      match p parser_state with
      | Ok next => sequence_of_loop rest next (results ++ [result next])
      | Raise e => Raise e
      | Diverge => Diverge
      end
  end.

Definition sequence_of (parsers : list Parser) : Parser :=
  fun parser_state => sequence_of_loop parsers parser_state [].

(** [choice]: [parser_state] is rebound only by the alternative that
    succeeds, so every alternative and the final message see the cursor the
    choice was applied to. *)
Fixpoint choice (parsers : list Parser) (parser_state : ParserState) : Outcome :=
  match parsers with
  | [] =>
      Raise (ParseError (lit "Unable to match any parsers at index "
                           ++ str_int (index parser_state) ++ lit "."))
  | p :: rest =>
      match p parser_state with
      | Ok next => Ok next
      | Raise (ParseError _) => choice rest parser_state
      | Raise e => Raise e
      | Diverge => Diverge
      end
  end.

(** The [while True] loop shared by [many] and [many1]: it leaves on a
    [ParseError] or an [EOFError] only. *)
Fixpoint repeat_loop (fuel : nat) (parser : Parser) (parser_state : ParserState)
    (results : list Value) : Outcome :=
  match fuel with
  | O => Diverge
  | S fuel' =>
      match parser parser_state with
      | Ok next => repeat_loop fuel' parser next (results ++ [result next])
      | Raise (ParseError _) | Raise (EOFError _) =>
          Ok (update parser_state (index parser_state) (VList results))
      | Raise e => Raise e
      | Diverge => Diverge
      end
  end.

(** [many]: the first attempt sits under a bare [except:], whose handler
    returns the cursor [many] was given. *)
Definition many (fuel : nat) (parser : Parser) : Parser :=
  fun parser_state =>
    match parser parser_state with
    | Ok next => repeat_loop fuel parser next [result next]
    | Raise _ => Ok parser_state
    | Diverge => Diverge
    end.

Definition many1 (fuel : nat) (parser : Parser) : Parser :=
  fun parser_state =>
    match parser parser_state with
    | Ok next => repeat_loop fuel parser next [result next]
    | Raise e => Raise e
    | Diverge => Diverge
    end.

(** [''.join(result)]. *)
Fixpoint strs_of (l : list Value) : option (list PyStr) :=
  match l with
  | [] => Some []
  | VStr s :: rest => option_map (cons s) (strs_of rest)
  | _ :: _ => None
  end.

Definition join_result (result : Value) : Result Value :=
  match result with
  | VList l | VTuple l =>
      match strs_of l with
      | Some parts => Return (VStr (join [] parts))
      | None => Throw TypeError
      end
  | VStr s => Return (VStr s)
  | _ => Throw TypeError
  end.

Definition letters (fuel : nat) (isalpha : Z -> bool) : Parser :=
  Parser.map (many1 fuel (letter isalpha)) join_result.

Definition digits (fuel : nat) (isdigit : Z -> bool) : Parser :=
  Parser.map (many1 fuel (digit isdigit)) join_result.

Definition lazy (parser_thunk : unit -> Parser) : Parser :=
  fun parser_state => parser_thunk tt parser_state.

(** The loop of [separated_by]: both [try] blocks catch [ParseError] only. *)
Fixpoint separated_by_loop (fuel : nat) (separator_parser value_parser : Parser)
    (parser_state : ParserState) (results : list Value) : Outcome :=
  match fuel with
  | O => Diverge
  | S fuel' =>
      match value_parser parser_state with
      | Raise (ParseError _) =>
          Ok (update parser_state (index parser_state) (VList results))
      | Raise e => Raise e
      | Diverge => Diverge
      | Ok value_state =>
          let results := results ++ [result value_state] in
          let parser_state := value_state in
          match separator_parser parser_state with
          | Raise (ParseError _) =>
              Ok (update parser_state (index parser_state) (VList results))
          | Raise e => Raise e
          | Diverge => Diverge
          | Ok separator_state =>
              separated_by_loop fuel' separator_parser value_parser separator_state results
          end
      end
  end.

Definition separated_by (fuel : nat) (separator_parser value_parser : Parser) : Parser :=
  fun parser_state =>
    separated_by_loop fuel separator_parser value_parser parser_state [].

Definition succeed (value : Value) : Parser :=
  fun parser_state => Ok (update parser_state (index parser_state) value).

Definition fail (error_message : PyStr) : Parser :=
  fun _ => Raise (ParseError error_message).

(** Subscripting of a result value, [v[i]]. *)
Definition subscript (v : Value) (i : Z) : Result Value :=
  match v with
  | VList l | VTuple l =>
      match py_nth l i with Some x => Return x | None => Throw IndexError end
  | VStr s =>
      match py_nth s i with Some c => Return (VStr [c]) | None => Throw IndexError end
  | _ => Throw TypeError
  end.

Definition between (left_parser right_parser content_parser : Parser) : Parser :=
  Parser.map (sequence_of [left_parser; content_parser; right_parser])
             (fun results => subscript results 1).

(** ** Bit primitives *)

(** The lines that [bit], [zero] and [one] share: locate the byte and
    extract the addressed bit, most significant bit first.
    [math.floor(index / 8)] is [index // 8]: the quotient by 8 is exact in
    binary floating point for every index below 2^53, and a buffer that
    such an index falls into would hold 2^50 bytes. *)
Definition fetch_bit (parser_state : ParserState) : Result Z :=
  let byte_offset := index parser_state / 8 in
  if byte_offset >=? len (source parser_state) then Throw (EOFError EOF_MESSAGE)
  else
    let bit_offset := 7 - index parser_state mod 8 in
    match getitem (source parser_state) byte_offset with
    | Throw e => Throw e
    | Return (VInt byte) =>
        Return (Z.shiftr (Z.land byte (Z.shiftl 1 bit_offset)) bit_offset)
    | Return _ => Throw TypeError
    end.

Definition bit : Parser :=
  fun parser_state =>
    match fetch_bit parser_state with
    | Throw e => Raise e
    | Return bit => Ok (update parser_state (index parser_state + 1) (VInt bit))
    end.

Definition zero : Parser :=
  fun parser_state =>
    match fetch_bit parser_state with
    | Throw e => Raise e
    | Return bit =>
        if negb (bit =? 0) then
          Raise (ParseError (lit "Expected a zero, but got a one at index "
                               ++ str_int (index parser_state)))
        else Ok (update parser_state (index parser_state + 1) (VInt bit))
    end.

Definition one : Parser :=
  fun parser_state =>
    match fetch_bit parser_state with
    | Throw e => Raise e
    | Return bit =>
        if negb (bit =? 1) then
          Raise (ParseError (lit "Expected a one, but got a zero at index "
                               ++ str_int (index parser_state)))
        else Ok (update parser_state (index parser_state + 1) (VInt bit))
    end.

(** ** Numeric decoders *)

(** [enumerate(l)] and [sum(l)]. *)
Definition enumerate {A : Type} (l : list A) : list (Z * A) :=
  combine (List.map Z.of_nat (seq 0 (List.length l))) l.

Definition py_sum (l : list Z) : Z := fold_left Z.add l 0.

(** The items of a sequence, as [enumerate] and subscripting see them;
    [None] and integers are no sequences. *)
Definition items (v : Value) : option (list Value) :=
  match v with
  | VList l | VTuple l => Some l
  | VStr s => Some (List.map (fun c => VStr [c]) s)
  | _ => None
  end.

(** [v == z] against an integer literal. *)
Definition eq_int (v : Value) (z : Z) : bool :=
  match v with
  | VInt z' => z' =? z
  | _ => false
  end.

(** The items of a sequence of integers; [sum] over products with any
    other item raises [TypeError]. *)
Fixpoint ints_of (l : list Value) : option (list Z) :=
  match l with
  | [] => Some []
  | VInt z :: rest => option_map (cons z) (ints_of rest)
  | _ :: _ => None
  end.

(** The lambda of [uint].  [2 ** k] is only taken at [k >= 0]: the list
    that [sequence_of([bit] * n)] returns has [max(n, 0)] items. *)
Definition uint_value (n : Z) (result : Value) : Result Value :=
  match items result with
  | Some l =>
      match ints_of l with
      | Some bits =>
          Return (VInt (py_sum
            (List.map (fun ix => snd ix * 2 ^ (n - (fst ix + 1))) (enumerate bits))))
      | None => Throw TypeError
      end
  | None => Throw TypeError
  end.

(** [[bit] * n] is empty for [n <= 0]. *)
Definition uint (n : Z) : Parser :=
  Parser.map (sequence_of (repeat bit (Z.to_nat n))) (uint_value n).

(** The lambda of [int]: [bits[0]] comes first and raises [IndexError] on
    the empty list; the second branch only compares the items with 1. *)
Definition int_value (n : Z) (bits : Value) : Result Value :=
  match items bits with
  | Some l =>
      match py_nth l 0 with
      | None => Throw IndexError
      | Some b0 =>
          if eq_int b0 0 then
            match ints_of l with
            | Some bits =>
                Return (VInt (py_sum
                  (List.map (fun ix => snd ix * 2 ^ (n - (fst ix + 1))) (enumerate bits))))
            | None => Throw TypeError
            end
          else
            Return (VInt (- (1 + py_sum
              (List.map (fun ix => (if eq_int (snd ix) 1 then 0 else 1) * 2 ^ (n - (fst ix + 1)))
                        (enumerate l)))))
      end
  | None => Throw TypeError
  end.

Definition int (n : Z) : Parser :=
  Parser.map (sequence_of (repeat bit (Z.to_nat n))) (int_value n).

(** [s.encode('utf-8')], Python's built-in encoder: one to four bytes per
    code point; surrogates (and numbers that are no code point) raise. *)
Definition encode_char (c : Z) : option (list Z) :=
  if (c <? 0) || (16%Z * 65536 + 65535 <? c) then None
  else if c <? 128 then Some [c]
  else if c <? 2048 then Some [Z.lor 192 (Z.shiftr c 6); Z.lor 128 (Z.land c 63)]
  else if (55296 <=? c) && (c <=? 57343) then None
  else if c <? 65536 then
    Some [Z.lor 224 (Z.shiftr c 12); Z.lor 128 (Z.land (Z.shiftr c 6) 63);
          Z.lor 128 (Z.land c 63)]
  else
    Some [Z.lor 240 (Z.shiftr c 18); Z.lor 128 (Z.land (Z.shiftr c 12) 63);
          Z.lor 128 (Z.land (Z.shiftr c 6) 63); Z.lor 128 (Z.land c 63)].

Fixpoint encode_utf8 (s : PyStr) : Result (list byte) :=
  match s with
  | [] => Return []
  | c :: rest =>
      match encode_char c, encode_utf8 rest with
      | Some bs, Return tail => Return (List.map byte_of_Z bs ++ tail)
      | _, _ => Throw UnicodeEncodeError
      end
  end.

(** The parser [raw_string] builds for one byte [b] of the encoded
    literal; [chr] wants an integer, and one that is a code point. *)
Definition expect_byte (b : Z) : Parser :=
  Parser.chain (uint 8) (fun result =>
    match result with
    | VInt r =>
        if r =? b then Return (succeed (VInt b))
        else if (r <? 0) || (16%Z * 65536 + 65535 <? r) then Throw (OtherError "ValueError")
        else Return (fail (lit "Expected " ++ chr b ++ lit ", but got " ++ chr r ++ lit "."))
    | _ => Throw TypeError
    end).

Definition raw_string (source : PyStr) : Parser :=
  fun parser_state =>
    match encode_utf8 source with
    | Throw e => Raise e
    | Return string_source =>
        sequence_of (List.map (fun b => expect_byte (byte_val b)) string_source) parser_state
    end.

(** ** The IPv4 demonstration grammar *)

Definition tag (type_ : PyStr) (value : Value) : Value := VTuple [VStr type_; value].

Definition tagged (type_ : String.string) : Value -> Result Value :=
  fun value => Return (tag (lit type_) value).

(** [result.to_bytes(4, 'big')] followed by ['.'.join(map(str, ...))]. *)
Definition dotted_quad (result : Value) : Result Value :=
  match result with
  | VInt r =>
      if (r <? 0) || (2 ^ 32 <=? r) then Throw OverflowError
      else
        Return (VStr (join (lit ".")
          (List.map str_int [Z.shiftr r 24; Z.land (Z.shiftr r 16) 255;
                             Z.land (Z.shiftr r 8) 255; Z.land r 255])))
  | _ => Throw (OtherError "AttributeError")
  end.

Definition tagged_address (type_ : String.string) : Value -> Result Value :=
  fun result =>
    match dotted_quad result with
    | Return s => Return (tag (lit type_) s)
    | Throw e => Throw e
    end.

(** The [chain] handler of the grammar: [result[1][1] > 5] selects the
    options branch, where [list(tag('Options', remaining))] is the
    two-element list of the tuple's members. *)
Definition options_handler (result : Value) : Result Parser :=
  match subscript result 1 with
  | Throw e => Throw e
  | Return field =>
      match subscript field 1 with
      | Throw e => Throw e
      | Return (VInt ihl) =>
          if ihl >? 5 then
            Return (Parser.chain (sequence_of (repeat (uint 8) 8)) (fun remaining =>
              match result, tag (lit "Options") remaining with
              | VList fields, VTuple members => Return (succeed (VList (fields ++ members)))
              | _, _ => Throw TypeError
              end))
          else Return (succeed result)
      | Return _ => Throw TypeError
      end
  end.

Definition ipv4_header_parser : Parser :=
  Parser.chain
    (sequence_of [
       Parser.map (uint 4) (tagged "Version");
       Parser.map (uint 4) (tagged "IHL");
       Parser.map (uint 6) (tagged "DSCP");
       Parser.map (uint 2) (tagged "ECN");
       Parser.map (uint 16) (tagged "Total Length");
       Parser.map (uint 16) (tagged "Identification");
       Parser.map (uint 3) (tagged "Flags");
       Parser.map (uint 13) (tagged "Fragment Offset");
       Parser.map (uint 8) (tagged "TTL");
       Parser.map (uint 8) (tagged "Protocol");
       Parser.map (uint 16) (tagged "Header Checksum");
       Parser.map (uint 32) (tagged_address "Source IP");
       Parser.map (uint 32) (tagged_address "Destination IP")
     ])
    options_handler.

(** * The cursors as objects

    The definitions above treat a cursor as a value.  In the program a
    cursor is an object that parsers hand to one another by reference, and
    a combinator that backtracks reads a cursor again after another parser
    has run.  This second reading of the same code keeps the object store:
    a heap of cursor objects in order of creation, a reference being a
    position in it.  The library creates cursors ([ParserState(...)] in
    [parse] and in [update]) and reads their fields; it has no statement
    that assigns to a field. *)

Module Store.

Definition Ref := nat.

Definition Heap := list ParserState.

(** The object behind a reference. *)
Definition deref (h : Heap) (r : Ref) : ParserState :=
  nth r h (mkParserState (Bytes []) 0 VNone).

Inductive Outcome :=
| Ok (r : Ref)
| Raise (e : Exc)
| Diverge.

Definition Parser := Heap -> Ref -> Heap * Outcome.

(** [ParserState(source, index, result)]: a new object. *)
Definition new (h : Heap) (source : Source) (index : Z) (result : Value) : Heap * Ref :=
  (h ++ [mkParserState source index result], List.length h).

(** [self.update(index, result)]. *)
Definition update (h : Heap) (self : Ref) (index : Z) (result : Value) : Heap * Ref :=
  new h (source (deref h self)) index result.

(** [return parser_state.update(index, result)]. *)
Definition return_update (h : Heap) (self : Ref) (index : Z) (result : Value)
    : Heap * Outcome :=
  let (h', r') := update h self index result in (h', Ok r').

Definition parse (self : Parser) (target : Source) (h : Heap) : Heap * Outcome :=
  let (h0, initial_state) := new h target 0 VNone in
  self h0 initial_state.

Definition chain (self : Parser) (chain_fn : Value -> Result Parser) : Parser :=
  fun h parser_state =>
    match self h parser_state with
    | (h1, Ok next_state) =>
        match chain_fn (result (deref h1 next_state)) with
        | Return next_parser => next_parser h1 next_state
        | Throw e => (h1, Raise e)
        end
    | failure => failure
    end.

Definition map (self : Parser) (map_fn : Value -> Result Value) : Parser :=
  fun h parser_state =>
    match self h parser_state with
    | (h1, Ok next_state) =>
        match map_fn (result (deref h1 next_state)) with
        | Return v => return_update h1 next_state (index (deref h1 next_state)) v
        | Throw e => (h1, Raise e)
        end
    | failure => failure
    end.

Definition error_map (self : Parser) (error_map_fn : PyStr -> Z -> Result Value) : Parser :=
  fun h parser_state =>
    match self h parser_state with
    | (h1, Raise (ParseError msg)) =>
        match error_map_fn msg (index (deref h1 parser_state)) with
        | Return v => return_update h1 parser_state (index (deref h1 parser_state)) v
        | Throw e => (h1, Raise e)
        end
    | other => other
    end.

Definition string (target_ : PyStr) : Parser :=
  fun h parser_state =>
    let st := deref h parser_state in
    if Z.of_nat (List.length target_) >? len (target st) then
      (h, Raise (EOFError EOF_MESSAGE))
    else
      match target st with
      | Text t =>
          if startswith t target_ then
            return_update h parser_state (index st + Z.of_nat (List.length target_))
              (VStr target_)
          else
            (h, Raise (ParseError
              (QUOTE ++ firstn (List.length target_) t ++ QUOTE ++ lit " at index "
                 ++ str_int (index st) ++ lit " does not start with "
                 ++ QUOTE ++ target_ ++ QUOTE ++ lit ".")))
      | Bytes _ => (h, Raise TypeError)
      end.

Definition match_class (is_class : Z -> bool) (what : String.string) : Parser :=
  fun h parser_state =>
    let st := deref h parser_state in
    if len (target st) =? 0 then (h, Raise (EOFError EOF_MESSAGE))
    else
      match target st with
      | Text (c :: _) =>
          if is_class c then return_update h parser_state (index st + 1) (VStr [c])
          else
            (h, Raise (ParseError (lit "Couldn't match " ++ lit what ++ lit " at index "
                                     ++ str_int (index st) ++ lit ".")))
      | Text [] => (h, Raise IndexError)
      | Bytes _ => (h, Raise (OtherError "AttributeError"))
      end.

Definition letter (isalpha : Z -> bool) : Parser := match_class isalpha "letters".

Definition digit (isdigit : Z -> bool) : Parser := match_class isdigit "digits".

Fixpoint sequence_of_loop (parsers : list Parser) (h : Heap) (parser_state : Ref)
    (results : list Value) : Heap * Outcome :=
  match parsers with
  | [] => return_update h parser_state (index (deref h parser_state)) (VList results)
  | p :: rest =>
      match p h parser_state with
      | (h1, Ok next) => sequence_of_loop rest h1 next (results ++ [result (deref h1 next)])
      | failure => failure
      end
  end.

Definition sequence_of (parsers : list Parser) : Parser :=
  fun h parser_state => sequence_of_loop parsers h parser_state [].

(** After a mismatch the next alternative gets the reference the choice
    was given, in the heap the failed alternative left. *)
Fixpoint choice (parsers : list Parser) (h : Heap) (parser_state : Ref) : Heap * Outcome :=
  match parsers with
  | [] =>
      (h, Raise (ParseError (lit "Unable to match any parsers at index "
                               ++ str_int (index (deref h parser_state)) ++ lit ".")))
  | p :: rest =>
      match p h parser_state with
      | (h1, Raise (ParseError _)) => choice rest h1 parser_state
      | other => other
      end
  end.

Fixpoint repeat_loop (fuel : nat) (parser : Parser) (h : Heap) (parser_state : Ref)
    (results : list Value) : Heap * Outcome :=
  match fuel with
  | O => (h, Diverge)
  | S fuel' =>
      match parser h parser_state with
      | (h1, Ok next) =>
          repeat_loop fuel' parser h1 next (results ++ [result (deref h1 next)])
      | (h1, Raise (ParseError _)) | (h1, Raise (EOFError _)) =>
          return_update h1 parser_state (index (deref h1 parser_state)) (VList results)
      | failure => failure
      end
  end.

(** The handler of the first attempt returns the reference it was given:
    no cursor is created on that path. *)
Definition many (fuel : nat) (parser : Parser) : Parser :=
  fun h parser_state =>
    match parser h parser_state with
    | (h1, Ok next) => repeat_loop fuel parser h1 next [result (deref h1 next)]
    | (h1, Raise _) => (h1, Ok parser_state)
    | (h1, Diverge) => (h1, Diverge)
    end.

Definition many1 (fuel : nat) (parser : Parser) : Parser :=
  fun h parser_state =>
    match parser h parser_state with
    | (h1, Ok next) => repeat_loop fuel parser h1 next [result (deref h1 next)]
    | failure => failure
    end.

Definition lazy (parser_thunk : unit -> Parser) : Parser :=
  fun h parser_state => parser_thunk tt h parser_state.

Definition between (left_parser right_parser content_parser : Parser) : Parser :=
  map (sequence_of [left_parser; content_parser; right_parser])
      (fun results => subscript results 1).

Fixpoint separated_by_loop (fuel : nat) (separator_parser value_parser : Parser)
    (h : Heap) (parser_state : Ref) (results : list Value) : Heap * Outcome :=
  match fuel with
  | O => (h, Diverge)
  | S fuel' =>
      match value_parser h parser_state with
      | (h1, Raise (ParseError _)) =>
          return_update h1 parser_state (index (deref h1 parser_state)) (VList results)
      | (h1, Ok value_state) =>
          let results := results ++ [result (deref h1 value_state)] in
          let parser_state := value_state in
          match separator_parser h1 parser_state with
          | (h2, Raise (ParseError _)) =>
              return_update h2 parser_state (index (deref h2 parser_state)) (VList results)
          | (h2, Ok separator_state) =>
              separated_by_loop fuel' separator_parser value_parser h2 separator_state results
          | failure => failure
          end
      | failure => failure
      end
  end.

Definition separated_by (fuel : nat) (separator_parser value_parser : Parser) : Parser :=
  fun h parser_state =>
    separated_by_loop fuel separator_parser value_parser h parser_state [].

Definition succeed (value : Value) : Parser :=
  fun h parser_state => return_update h parser_state (index (deref h parser_state)) value.

Definition fail (error_message : PyStr) : Parser :=
  fun h _ => (h, Raise (ParseError error_message)).

Definition bit : Parser :=
  fun h parser_state =>
    let st := deref h parser_state in
    match fetch_bit st with
    | Throw e => (h, Raise e)
    | Return bit => return_update h parser_state (index st + 1) (VInt bit)
    end.

Definition zero : Parser :=
  fun h parser_state =>
    let st := deref h parser_state in
    match fetch_bit st with
    | Throw e => (h, Raise e)
    | Return bit =>
        if negb (bit =? 0) then
          (h, Raise (ParseError (lit "Expected a zero, but got a one at index "
                                   ++ str_int (index st))))
        else return_update h parser_state (index st + 1) (VInt bit)
    end.

Definition one : Parser :=
  fun h parser_state =>
    let st := deref h parser_state in
    match fetch_bit st with
    | Throw e => (h, Raise e)
    | Return bit =>
        if negb (bit =? 1) then
          (h, Raise (ParseError (lit "Expected a one, but got a zero at index "
                                   ++ str_int (index st))))
        else return_update h parser_state (index st + 1) (VInt bit)
    end.

Definition uint (n : Z) : Parser :=
  map (sequence_of (repeat bit (Z.to_nat n))) (uint_value n).

Definition int (n : Z) : Parser :=
  map (sequence_of (repeat bit (Z.to_nat n))) (int_value n).

End Store.

(** * Specification vocabulary *)

(** Bit [i] of the stream: bit [7 - i mod 8] of byte [i / 8], most
    significant bit first. *)
Definition source_bit (bs : list byte) (i : Z) : Z :=
  match nth_error bs (Z.to_nat (i / 8)) with
  | Some b => Z.b2z (Z.testbit (byte_val b) (7 - i mod 8))
  | None => 0
  end.

(** The [n] bits of the stream from position [i] on. *)
Fixpoint bits_from (bs : list byte) (i : Z) (n : nat) : list Z :=
  match n with
  | O => []
  | S n' => source_bit bs i :: bits_from bs (i + 1) n'
  end.

(** The big-endian value of [b_0 .. b_(n-1)]: the sum of [b_i * 2^(n-1-i)]. *)
Fixpoint big_endian (bits : list Z) : Z :=
  match bits with
  | [] => 0
  | b :: rest => b * 2 ^ Z.of_nat (List.length rest) + big_endian rest
  end.

Definition is_bit (b : Z) : Prop := b = 0 \/ b = 1.

Definition invert (b : Z) : Z := if b =? 1 then 0 else 1.

(** The two's-complement value of a bit string: its unsigned value, less
    [2^n] when the leading bit is set. *)
Definition twos_complement (bits : list Z) : Z :=
  big_endian bits - hd 0 bits * 2 ^ Z.of_nat (List.length bits).

(** [p] fails with a mismatch on the cursor [st]. *)
Definition mismatches (p : Parser) (st : ParserState) : Prop :=
  exists msg, p st = Raise (ParseError msg).

(** [iterates p st rs st']: applied again and again from [st], the parser
    [p] succeeds [length rs] times, with results [rs], and reaches [st']. *)
Inductive iterates (p : Parser) : ParserState -> list Value -> ParserState -> Prop :=
| iterates_done st : iterates p st [] st
| iterates_step st st1 rs st' :
    p st = Ok st1 -> iterates p st1 rs st' ->
    iterates p st (result st1 :: rs) st'.

(** [p] fails on [st] with one of the two failure kinds of the library. *)
Definition stops (p : Parser) (st : ParserState) : Prop :=
  exists msg, p st = Raise (ParseError msg) \/ p st = Raise (EOFError msg).

(** [alternation sep value st rs st']: from [st], [value] and then [sep]
    succeed in turn, [length rs] times each, the values giving the results
    [rs] and the last separator reaching [st']. *)
Inductive alternation (sep value : Parser) :
    ParserState -> list Value -> ParserState -> Prop :=
| alternation_done st : alternation sep value st [] st
| alternation_step st vs ss rs st' :
    value st = Ok vs -> sep vs = Ok ss -> alternation sep value ss rs st' ->
    alternation sep value st (result vs :: rs) st'.

(** The byte made of the eight bits of the stream from bit [i] on, and the
    [n] such bytes from bit [i] on. *)
Definition stream_byte (bs : list byte) (i : Z) : Z := big_endian (bits_from bs i 8).

Fixpoint stream_bytes (bs : list byte) (i : Z) (n : nat) : list Z :=
  match n with
  | O => []
  | S n' => stream_byte bs i :: stream_bytes bs (i + 8) n'
  end.

(** The description [raw_string] gives of a byte [r] found where [b] was
    expected. *)
Definition byte_mismatch (b r : Z) : PyStr :=
  lit "Expected " ++ chr b ++ lit ", but got " ++ chr r ++ lit ".".

(** The field of [w] bits at bit [off] of a buffer, the dotted rendering
    of a 32-bit value, and the thirteen tagged fields the grammar reads
    from the first 160 bits. *)
Definition field (bs : list byte) (off w : Z) : Z :=
  big_endian (bits_from bs off (Z.to_nat w)).

Definition dotted (r : Z) : PyStr :=
  join (lit ".")
    (List.map str_int [Z.shiftr r 24; Z.land (Z.shiftr r 16) 255;
                       Z.land (Z.shiftr r 8) 255; Z.land r 255]).

Definition fixed_fields (bs : list byte) : list Value :=
  [tag (lit "Version") (VInt (field bs 0 4));
   tag (lit "IHL") (VInt (field bs 4 4));
   tag (lit "DSCP") (VInt (field bs 8 6));
   tag (lit "ECN") (VInt (field bs 14 2));
   tag (lit "Total Length") (VInt (field bs 16 16));
   tag (lit "Identification") (VInt (field bs 32 16));
   tag (lit "Flags") (VInt (field bs 48 3));
   tag (lit "Fragment Offset") (VInt (field bs 51 13));
   tag (lit "TTL") (VInt (field bs 64 8));
   tag (lit "Protocol") (VInt (field bs 72 8));
   tag (lit "Header Checksum") (VInt (field bs 80 16));
   tag (lit "Source IP") (VStr (dotted (field bs 96 32)));
   tag (lit "Destination IP") (VStr (dotted (field bs 128 32)))].

(** A sample header, its first byte left open, and eight bytes of options. *)
Definition sample_header (first : byte) : list byte :=
  [first; x00; x00; x54; xa6; xf2; x40; x00; x40; x01; x00; x00;
   xc0; xa8; x00; x01; xc0; xa8; x00; xc7].

Definition sample_options : list byte := [x01; x02; x03; x04; x05; x06; x07; x08].

(** The thirteen tagged fields of the sample header. *)
Definition sample_fields (ihl : Z) : list Value :=
  [tag (lit "Version") (VInt 4);
   tag (lit "IHL") (VInt ihl);
   tag (lit "DSCP") (VInt 0);
   tag (lit "ECN") (VInt 0);
   tag (lit "Total Length") (VInt 84);
   tag (lit "Identification") (VInt 42738);
   tag (lit "Flags") (VInt 2);
   tag (lit "Fragment Offset") (VInt 0);
   tag (lit "TTL") (VInt 64);
   tag (lit "Protocol") (VInt 1);
   tag (lit "Header Checksum") (VInt 0);
   tag (lit "Source IP") (VStr (lit "192.168.0.1"));
   tag (lit "Destination IP") (VStr (lit "192.168.0.199"))].

(** [h'] holds every cursor of [h], unchanged, in front of the cursors
    created since. *)
Definition preserves (h h' : Store.Heap) : Prop := exists created, h' = h ++ created.

(** The outcome [o] of a run from the cursor [r] of [h], which left the
    heap [h'], against the outcome [po] of the value-level parser on the
    same cursor: on success the returned reference is a cursor of [h'],
    the one [po] describes, over the same source and not behind [r]. *)
Definition agrees (h : Store.Heap) (r : Store.Ref) (h' : Store.Heap)
    (o : Store.Outcome) (po : Outcome) : Prop :=
  match o with
  | Store.Ok r' =>
      (r' < List.length h')%nat
      /\ po = Ok (Store.deref h' r')
      /\ source (Store.deref h' r') = source (Store.deref h r)
      /\ index (Store.deref h r) <= index (Store.deref h' r')
  | Store.Raise e => po = Raise e
  | Store.Diverge => po = Diverge
  end.

(** The object-level parser [hp] never changes a cursor that exists, moves
    forward only, and does what the value-level parser [p] says. *)
Definition models (hp : Store.Parser) (p : Parser) : Prop :=
  forall h r h' o, (r < List.length h)%nat -> hp h r = (h', o) ->
    preserves h h' /\ agrees h r h' o (p (Store.deref h r)).

(** The parsers of the library, each with its two readings: the
    primitives, and the combinators applied to parsers of the library; a
    parser written by the user counts when it keeps the discipline. *)
Inductive library : Store.Parser -> Parser -> Prop :=
| lib_user hp p : models hp p -> library hp p
| lib_string t : library (Store.string t) (string t)
| lib_letter isalpha : library (Store.letter isalpha) (letter isalpha)
| lib_digit isdigit : library (Store.digit isdigit) (digit isdigit)
| lib_bit : library Store.bit bit
| lib_zero : library Store.zero zero
| lib_one : library Store.one one
| lib_succeed v : library (Store.succeed v) (succeed v)
| lib_fail msg : library (Store.fail msg) (fail msg)
| lib_map hp p f : library hp p -> library (Store.map hp f) (Parser.map p f)
| lib_chain hp p hf f :
    library hp p ->
    (forall v e, hf v = Throw e <-> f v = Throw e) ->
    (forall v hq q, hf v = Return hq -> f v = Return q -> library hq q) ->
    library (Store.chain hp hf) (Parser.chain p f)
| lib_error_map hp p f :
    library hp p -> library (Store.error_map hp f) (Parser.error_map p f)
| lib_sequence_of pairs :
    (forall hq q, In (hq, q) pairs -> library hq q) ->
    library (Store.sequence_of (List.map fst pairs)) (sequence_of (List.map snd pairs))
| lib_choice pairs :
    (forall hq q, In (hq, q) pairs -> library hq q) ->
    library (Store.choice (List.map fst pairs)) (choice (List.map snd pairs))
| lib_many fuel hp p : library hp p -> library (Store.many fuel hp) (many fuel p)
| lib_many1 fuel hp p : library hp p -> library (Store.many1 fuel hp) (many1 fuel p)
| lib_lazy ht t : library (ht tt) (t tt) -> library (Store.lazy ht) (lazy t)
| lib_between hl l hr r hc c :
    library hl l -> library hr r -> library hc c ->
    library (Store.between hl hr hc) (between l r c)
| lib_separated_by fuel hs s hv v :
    library hs s -> library hv v ->
    library (Store.separated_by fuel hs hv) (separated_by fuel s v).

(** ** Vocabulary of the further properties *)

(** [threads ps st rs st']: the parsers [ps], applied one after the other
    from [st], each to the cursor the one before returned, all succeed,
    with the results [rs], and reach [st']. *)
Inductive threads : list Parser -> ParserState -> list Value -> ParserState -> Prop :=
| threads_nil st : threads [] st [] st
| threads_cons p ps st st1 rs st' :
    p st = Ok st1 -> threads ps st1 rs st' ->
    threads (p :: ps) st (result st1 :: rs) st'.

(** The message of the mismatch [choice] raises when no alternative is
    left. *)
Definition no_alternative (st : ParserState) : PyStr :=
  lit "Unable to match any parsers at index " ++ str_int (index st) ++ lit ".".

(** [int.from_bytes(chunk, 'big')]. *)
Definition be_bytes (chunk : list byte) : Z :=
  fold_left (fun acc b => 256 * acc + byte_val b) chunk 0.

(** The one-character strings of a text, as [letter] and [digit] return
    them. *)
Definition characters (s : PyStr) : list Value := List.map (fun c => VStr [c]) s.

(** * Properties *)

(** ** The bit stream of a byte buffer *)

Lemma byte_val_range (b : byte) : 0 <= byte_val b < 256.
Proof.
  unfold byte_val. pose proof (Byte.to_N_bounded b). lia.
Qed.

Lemma source_bit_is_bit bs i : is_bit (source_bit bs i).
Proof.
  unfold source_bit, is_bit.
  destruct (nth_error bs (Z.to_nat (i / 8))); [|now left].
  destruct (Z.testbit _ _); simpl; auto.
Qed.

Lemma bits_from_length bs n : forall i, List.length (bits_from bs i n) = n.
Proof. induction n; intros i; simpl; [reflexivity | now rewrite IHn]. Qed.

Lemma bits_from_is_bit bs n : forall i, Forall is_bit (bits_from bs i n).
Proof.
  induction n; intros i; simpl; constructor; auto using source_bit_is_bit.
Qed.

Lemma big_endian_range bits :
  Forall is_bit bits -> 0 <= big_endian bits < 2 ^ Z.of_nat (List.length bits).
Proof.
  induction 1 as [|b rest Hb _ IH]; simpl big_endian; simpl List.length.
  - cbn. lia.
  - rewrite Nat2Z.inj_succ, Z.pow_succ_r by lia.
    set (w := 2 ^ Z.of_nat (List.length rest)) in *.
    destruct Hb; subst b; lia.
Qed.

(** Masking with [1 << k] and shifting back reads bit [k]. *)
Lemma mask_shift_testbit v k :
  0 <= k -> Z.shiftr (Z.land v (Z.shiftl 1 k)) k = Z.b2z (Z.testbit v k).
Proof.
  intros Hk.
  rewrite Z.shiftr_land, Z.shiftr_shiftl_l, Z.sub_diag by lia.
  simpl Z.shiftl. change 1 with (Z.ones 1) at 1.
  rewrite Z.land_ones by lia. rewrite <- Z.bit0_mod, Z.shiftr_spec by lia.
  reflexivity.
Qed.

Lemma py_nth_nonneg {A : Type} (l : list A) i :
  0 <= i -> py_nth l i = nth_error l (Z.to_nat i).
Proof. intros H. unfold py_nth. now apply Z.leb_le in H as ->. Qed.

Lemma fetch_bit_in_range st bs :
  source st = Bytes bs -> 0 <= index st < 8 * len (source st) ->
  fetch_bit st = Return (source_bit bs (index st)).
Proof.
  intros Hs Hi. unfold fetch_bit, source_bit. rewrite Hs in *. cbn [len] in *.
  assert (Hq : 0 <= index st / 8 < Z.of_nat (List.length bs)).
  { split; [apply Z.div_pos; lia | apply Z.div_lt_upper_bound; lia]. }
  destruct (Z.geb_spec (index st / 8) (Z.of_nat (List.length bs))) as [|_]; [lia|].
  cbn [getitem]. rewrite py_nth_nonneg by lia.
  destruct (nth_error bs (Z.to_nat (index st / 8))) eqn:E.
  - rewrite mask_shift_testbit; [reflexivity|].
    pose proof (Z.mod_pos_bound (index st) 8). lia.
  - apply nth_error_None in E. lia.
Qed.

Lemma bit_in_range st bs :
  source st = Bytes bs -> 0 <= index st < 8 * len (source st) ->
  bit st = Ok (update st (index st + 1) (VInt (source_bit bs (index st)))).
Proof. intros Hs Hi. unfold bit. now rewrite (fetch_bit_in_range st bs). Qed.

Lemma nth_bits_from bs n : forall i k,
  (k < n)%nat -> nth k (bits_from bs i n) 0 = source_bit bs (i + Z.of_nat k).
Proof.
  induction n as [|n IH]; intros i k Hk; [lia|].
  destruct k as [|k]; simpl bits_from; simpl nth.
  - f_equal. lia.
  - rewrite IH by lia. f_equal. lia.
Qed.

(** ** Reading [n] bits in sequence *)

Lemma sequence_of_loop_bits bs n : forall st acc,
  source st = Bytes bs -> 0 <= index st ->
  index st + Z.of_nat n <= 8 * len (source st) ->
  sequence_of_loop (repeat bit n) st acc
  = Ok (update st (index st + Z.of_nat n)
          (VList (acc ++ List.map VInt (bits_from bs (index st) n)))).
Proof.
  induction n as [|n IH]; intros st acc Hs Hlo Hhi.
  - simpl. now rewrite Z.add_0_r, app_nil_r.
  - cbn [repeat sequence_of_loop bits_from List.map].
    rewrite (bit_in_range st bs) by (auto; lia).
    set (st1 := update st (index st + 1) (VInt (source_bit bs (index st)))).
    rewrite IH; subst st1; cbn [source index result update]; auto; try lia.
    unfold update. cbn [source].
    rewrite <- app_assoc. cbn [app].
    now replace (index st + 1 + Z.of_nat n) with (index st + Z.of_nat (S n)) by lia.
Qed.

Lemma ints_of_ints (l : list Z) : ints_of (List.map VInt l) = Some l.
Proof. induction l as [|z l IH]; simpl; [reflexivity | now rewrite IH]. Qed.

(** The weighted sum the decoders compute over [enumerate], started at
    position [k] with accumulator [a], is the big-endian value. *)
Lemma weighted_sum_big_endian {A : Type} (g : A -> Z) (n : Z) : forall xs k a,
  n = Z.of_nat k + Z.of_nat (List.length xs) ->
  fold_left Z.add
    (List.map (fun ix : Z * A => g (snd ix) * 2 ^ (n - (fst ix + 1)))
       (combine (List.map Z.of_nat (seq k (List.length xs))) xs)) a
  = a + big_endian (List.map g xs).
Proof.
  induction xs as [|b rest IH]; intros k a Hn.
  - simpl. lia.
  - cbn [List.length seq List.map combine fold_left big_endian fst snd].
    rewrite (IH (S k)) by (cbn [List.length] in Hn; lia).
    rewrite length_map.
    replace (n - (Z.of_nat k + 1)) with (Z.of_nat (List.length rest))
      by (cbn [List.length] in Hn; lia).
    lia.
Qed.

Lemma big_endian_invert bits :
  Forall is_bit bits ->
  big_endian (List.map invert bits) = 2 ^ Z.of_nat (List.length bits) - 1 - big_endian bits.
Proof.
  induction 1 as [|b rest Hb _ IH]; [reflexivity|].
  cbn [List.map big_endian List.length]. rewrite length_map, IH.
  rewrite Nat2Z.inj_succ, Z.pow_succ_r by lia.
  destruct Hb; subst b; [change (invert 0) with 1 | change (invert 1) with 0]; lia.
Qed.

Lemma uint_value_bits n bits :
  n = Z.of_nat (List.length bits) ->
  uint_value n (VList (List.map VInt bits)) = Return (VInt (big_endian bits)).
Proof.
  intros Hn. unfold uint_value, py_sum, enumerate. cbn [items].
  rewrite ints_of_ints.
  rewrite (weighted_sum_big_endian (fun b => b) n bits 0 0) by exact Hn.
  now rewrite map_id.
Qed.

Lemma int_value_bits n bits :
  n = Z.of_nat (List.length bits) -> bits <> [] ->
  int_value n (VList (List.map VInt bits))
  = Return (VInt (if hd 0 bits =? 0 then big_endian bits
                  else - (1 + big_endian (List.map invert bits)))).
Proof.
  intros Hn Hne. unfold int_value, py_sum, enumerate. cbn [items].
  rewrite ints_of_ints.
  destruct bits as [|b0 rest]; [congruence|].
  rewrite py_nth_nonneg by lia. cbn [Z.to_nat List.map nth_error hd eq_int].
  destruct (b0 =? 0).
  - rewrite (weighted_sum_big_endian (fun b => b) n (b0 :: rest) 0 0) by exact Hn.
    now rewrite map_id.
  - change (VInt b0 :: List.map VInt rest) with (List.map VInt (b0 :: rest)).
    rewrite (weighted_sum_big_endian (fun v => if eq_int v 1 then 0 else 1) n
               (List.map VInt (b0 :: rest)) 0 0)
      by (rewrite length_map; exact Hn).
    now rewrite List.map_map.
Qed.

Lemma twos_complement_cases bits :
  Forall is_bit bits -> bits <> [] ->
  (if hd 0 bits =? 0 then big_endian bits
   else - (1 + big_endian (List.map invert bits))) = twos_complement bits.
Proof.
  intros Hb Hne. unfold twos_complement.
  destruct bits as [|b0 rest]; [congruence|].
  cbn [hd]. inversion Hb as [|? ? Hb0 Hrest]; subst.
  destruct Hb0; subst b0; cbn [Z.eqb].
  - lia.
  - rewrite big_endian_invert by (constructor; [now right | assumption]). lia.
Qed.

Lemma twos_complement_range bits :
  Forall is_bit bits -> bits <> [] ->
  - 2 ^ (Z.of_nat (List.length bits) - 1) <= twos_complement bits
    < 2 ^ (Z.of_nat (List.length bits) - 1).
Proof.
  intros Hb Hne. unfold twos_complement.
  destruct bits as [|b0 rest]; [congruence|].
  inversion Hb as [|? ? Hb0 Hrest]; subst.
  pose proof (big_endian_range rest Hrest) as Hr.
  cbn [hd big_endian List.length].
  rewrite Nat2Z.inj_succ, Z.pow_succ_r by lia.
  replace (Z.succ (Z.of_nat (List.length rest)) - 1)
    with (Z.of_nat (List.length rest)) by lia.
  destruct Hb0; subst b0; lia.
Qed.

(** ** The numeric decoders *)

Lemma sequence_of_bits st bs n :
  0 <= n -> source st = Bytes bs -> 0 <= index st ->
  index st + n <= 8 * len (source st) ->
  sequence_of (repeat bit (Z.to_nat n)) st
  = Ok (update st (index st + n)
          (VList (List.map VInt (bits_from bs (index st) (Z.to_nat n))))).
Proof.
  intros Hn Hs Hlo Hhi. unfold sequence_of.
  rewrite (sequence_of_loop_bits bs) by (rewrite ?Z2Nat.id; auto).
  now rewrite Z2Nat.id by lia.
Qed.

Lemma uint_reads st bs n :
  0 <= n -> source st = Bytes bs -> 0 <= index st ->
  index st + n <= 8 * len (source st) ->
  uint n st
  = Ok (update st (index st + n)
          (VInt (big_endian (bits_from bs (index st) (Z.to_nat n))))).
Proof.
  intros Hn Hs Hlo Hhi. unfold uint, Parser.map.
  rewrite (sequence_of_bits st bs) by assumption.
  cbn [result update index].
  rewrite uint_value_bits by (rewrite bits_from_length; lia).
  reflexivity.
Qed.

Lemma int_reads st bs n :
  1 <= n -> source st = Bytes bs -> 0 <= index st ->
  index st + n <= 8 * len (source st) ->
  int n st
  = Ok (update st (index st + n)
          (VInt (twos_complement (bits_from bs (index st) (Z.to_nat n))))).
Proof.
  intros Hn Hs Hlo Hhi. unfold int, Parser.map.
  rewrite (sequence_of_bits st bs) by (auto; lia).
  cbn [result update index].
  assert (Hne : bits_from bs (index st) (Z.to_nat n) <> []).
  { intros E. apply (f_equal (@List.length Z)) in E.
    rewrite bits_from_length in E. simpl in E. lia. }
  rewrite int_value_bits by (rewrite ?bits_from_length; auto; lia).
  rewrite twos_complement_cases by auto using bits_from_is_bit.
  reflexivity.
Qed.

(** C1.  For [n >= 1] and a cursor over a byte buffer with at least [n]
    bits left, [uint(n)] returns the cursor moved forward by exactly [n]
    bits, and its result is the non-negative integer
    [sum b_k * 2^(n-1-k)] of the [n] bits [b_0 .. b_(n-1)] it passed over,
    [b_k] being bit [index + k] of the stream, most significant bit first. *)
Theorem uint_big_endian (n : Z) (st : ParserState) (bs : list byte) :
  1 <= n -> source st = Bytes bs -> 0 <= index st ->
  index st + n <= 8 * len (source st) ->
  let bits := bits_from bs (index st) (Z.to_nat n) in
  uint n st = Ok (mkParserState (source st) (index st + n) (VInt (big_endian bits)))
  /\ Z.of_nat (List.length bits) = n
  /\ (forall k, 0 <= k < n ->
        nth (Z.to_nat k) bits 0 = source_bit bs (index st + k))
  /\ 0 <= big_endian bits < 2 ^ n.
Proof.
  intros Hn Hs Hlo Hhi bits. subst bits.
  split; [|split; [|split]].
  - now rewrite (uint_reads st bs) by (auto; lia).
  - rewrite bits_from_length. lia.
  - intros k Hk. rewrite nth_bits_from by lia. f_equal. lia.
  - pose proof (big_endian_range _ (bits_from_is_bit bs (Z.to_nat n) (index st))) as H.
    rewrite bits_from_length, Z2Nat.id in H by lia. exact H.
Qed.

(** The first byte [0x45] of an IPv4 header: bits [0100] give 4 and the
    next bits [0101] give 5. *)
Lemma uint_big_endian_witness :
  uint 4 (mkParserState (Bytes [x45]) 0 VNone) = Ok (mkParserState (Bytes [x45]) 4 (VInt 4))
  /\ uint 4 (mkParserState (Bytes [x45]) 4 (VInt 4)) = Ok (mkParserState (Bytes [x45]) 8 (VInt 5)).
Proof.
  split.
  - refine (proj1 (uint_big_endian 4 (mkParserState (Bytes [x45]) 0 VNone) [x45] _ _ _ _));
      [lia | reflexivity | simpl; lia | simpl; lia].
  - refine (proj1 (uint_big_endian 4 (mkParserState (Bytes [x45]) 4 (VInt 4)) [x45] _ _ _ _));
      [lia | reflexivity | simpl; lia | simpl; lia].
Defined.

(** C2.  For [n >= 1] and a cursor with at least [n] bits left, [int(n)]
    moves the cursor forward by exactly [n] bits and returns the
    two's-complement value of the bits read: with a leading 0 it is what
    [uint(n)] returns on the same cursor, with a leading 1 it is
    [-(1 + the weighted sum of the inverted bits)], which is the unsigned
    value minus [2^n]; the value lies in [-2^(n-1), 2^(n-1)). *)
Theorem int_twos_complement (n : Z) (st : ParserState) (bs : list byte) :
  1 <= n -> source st = Bytes bs -> 0 <= index st ->
  index st + n <= 8 * len (source st) ->
  let bits := bits_from bs (index st) (Z.to_nat n) in
  let unsigned := big_endian bits in
  exists v,
    int n st = Ok (mkParserState (source st) (index st + n) (VInt v))
    /\ (hd 0 bits = 0 -> v = unsigned /\ int n st = uint n st)
    /\ (hd 0 bits = 1 ->
          v = - (1 + big_endian (List.map invert bits)) /\ v = unsigned - 2 ^ n)
    /\ (hd 0 bits = 0 \/ hd 0 bits = 1)
    /\ - 2 ^ (n - 1) <= v < 2 ^ (n - 1).
Proof.
  intros Hn Hs Hlo Hhi bits unsigned.
  assert (Hlen : Z.of_nat (List.length bits) = n).
  { unfold bits. rewrite bits_from_length. lia. }
  assert (Hbits : Forall is_bit bits) by apply bits_from_is_bit.
  assert (Hne : bits <> []).
  { intros E. rewrite E in Hlen. simpl in Hlen. lia. }
  exists (twos_complement bits).
  split; [now rewrite (int_reads st bs) by auto|].
  split; [|split; [|split]].
  - intros H0. rewrite (int_reads st bs), (uint_reads st bs) by (auto; lia).
    fold bits. unfold twos_complement. rewrite H0.
    split; [fold unsigned; lia|]. do 3 f_equal. lia.
  - intros H1. rewrite <- (twos_complement_cases bits Hbits Hne), H1.
    change (1 =? 0) with false. cbv iota.
    split; [reflexivity|]. rewrite big_endian_invert by assumption.
    rewrite Hlen. fold unsigned. lia.
  - destruct bits as [|b0 rest]; [congruence|]. inversion Hbits; subst. assumption.
  - pose proof (twos_complement_range bits Hbits Hne) as H.
    now rewrite Hlen in H.
Qed.

(** Bits [10000001] give -127 and bits [01111111] give 127. *)
Lemma int_twos_complement_witness :
  (exists v, int 8 (mkParserState (Bytes [x81]) 0 VNone)
             = Ok (mkParserState (Bytes [x81]) 8 (VInt v)) /\ v = -127)
  /\ (exists v, int 8 (mkParserState (Bytes [x7f]) 0 VNone)
                = Ok (mkParserState (Bytes [x7f]) 8 (VInt v)) /\ v = 127).
Proof.
  split.
  - destruct (int_twos_complement 8 (mkParserState (Bytes [x81]) 0 VNone) [x81])
      as (v & Hv & _ & H1 & _); [lia | reflexivity | simpl; lia | simpl; lia |].
    exists v. split; [exact Hv|]. destruct H1 as [_ H1]; [reflexivity|].
    rewrite H1. reflexivity.
  - destruct (int_twos_complement 8 (mkParserState (Bytes [x7f]) 0 VNone) [x7f])
      as (v & Hv & H0 & _); [lia | reflexivity | simpl; lia | simpl; lia |].
    exists v. split; [exact Hv|]. destruct H0 as [H0 _]; [reflexivity|].
    rewrite H0. reflexivity.
Defined.

(** Past the last byte [bit] meets the end of input, and so does a
    sequence of bits that the buffer cannot fill. *)
Lemma fetch_bit_past_end st :
  8 * len (source st) <= index st -> fetch_bit st = Throw (EOFError EOF_MESSAGE).
Proof.
  intros H. unfold fetch_bit.
  destruct (Z.geb_spec (index st / 8) (len (source st))) as [_|Hlt]; [reflexivity|].
  assert (len (source st) <= index st / 8) by (apply Z.div_le_lower_bound; lia).
  lia.
Qed.

Lemma sequence_of_loop_bits_short bs n : forall st acc,
  (0 < n)%nat -> source st = Bytes bs -> 0 <= index st ->
  8 * len (source st) < index st + Z.of_nat n ->
  sequence_of_loop (repeat bit n) st acc = Raise (EOFError EOF_MESSAGE).
Proof.
  induction n as [|n IH]; intros st acc Hn Hs Hlo Hhi; [lia|].
  - cbn [repeat sequence_of_loop].
    destruct (Z_lt_le_dec (index st) (8 * len (source st))) as [Hin|Hout].
    + rewrite (bit_in_range st bs) by (auto; lia).
      apply IH; cbn [source index update]; auto; lia.
    + unfold bit. now rewrite fetch_bit_past_end.
Qed.




(** ** Alternation *)

Lemma choice_skips_mismatches pre : forall rest st,
  Forall (fun q => mismatches q st) pre ->
  choice (pre ++ rest) st = choice rest st.
Proof.
  induction pre as [|q pre IH]; intros rest st H; [reflexivity|].
  inversion H as [|? ? [msg Hq] Hpre]; subst.
  cbn [app choice]. rewrite Hq. now apply IH.
Qed.

(** C3.  When the alternatives [pre] in front of [p] all fail with a
    mismatch on the cursor [st], [choice] applies [p] to that same cursor:
    a success of [p] is the result of the choice, whatever the later
    alternatives would do; a failure of [p] that is not a mismatch (such
    as end of input) is the failure of the whole choice; a mismatch of [p]
    hands the same cursor to the alternatives after it; and a choice whose
    alternatives all mismatch raises a mismatch that names the index of
    the cursor it started from. *)
Theorem choice_ordered_backtracking (pre post : list Parser) (p : Parser)
    (st : ParserState) :
  Forall (fun q => mismatches q st) pre ->
  (forall st', p st = Ok st' -> choice (pre ++ p :: post) st = Ok st')
  /\ (forall e, p st = Raise e -> is_mismatch e = false ->
        choice (pre ++ p :: post) st = Raise e)
  /\ (forall msg, p st = Raise (EOFError msg) ->
        choice (pre ++ p :: post) st = Raise (EOFError msg))
  /\ (mismatches p st -> choice (pre ++ p :: post) st = choice post st)
  /\ choice pre st
     = Raise (ParseError (lit "Unable to match any parsers at index "
                            ++ str_int (index st) ++ lit ".")).
Proof.
  intros Hpre. repeat split.
  - intros st' Hp. rewrite choice_skips_mismatches by assumption.
    cbn [choice]. now rewrite Hp.
  - intros e Hp He. rewrite choice_skips_mismatches by assumption.
    cbn [choice]. rewrite Hp. destruct e; [discriminate | reflexivity | reflexivity].
  - intros msg Hp. rewrite choice_skips_mismatches by assumption.
    cbn [choice]. now rewrite Hp.
  - intros [msg Hp]. rewrite choice_skips_mismatches by assumption.
    cbn [choice]. now rewrite Hp.
  - rewrite <- (app_nil_r pre). now rewrite choice_skips_mismatches.
Qed.

(** On the byte [0x40] at bit 1: [zero] mismatches and [one] then succeeds
    from bit 1 again; a mismatching second alternative leaves bit 1 to the
    third; [zero] alone gives the aggregate mismatch at index 1.  At bit 8,
    past the end, the end of input met by [zero] ends the choice although
    [succeed] comes next. *)
Lemma choice_ordered_backtracking_witness :
  let st := mkParserState (Bytes [x40]) 1 VNone in
  let st8 := mkParserState (Bytes [x40]) 8 VNone in
  choice ([zero] ++ one :: [bit]) st = Ok (mkParserState (Bytes [x40]) 2 (VInt 1))
  /\ choice ([zero] ++ fail (lit "no") :: [bit]) st = choice [bit] st
  /\ choice [zero] st
     = Raise (ParseError (lit "Unable to match any parsers at index 1."))
  /\ choice ([] ++ zero :: [succeed VNone]) st8 = Raise (EOFError EOF_MESSAGE).
Proof.
  intros st st8.
  assert (Hpre : Forall (fun q => mismatches q st) [zero]).
  { constructor; [eexists; reflexivity | constructor]. }
  split; [|split; [|split]].
  - apply (proj1 (choice_ordered_backtracking [zero] [bit] one st Hpre)).
    reflexivity.
  - apply (proj1 (proj2 (proj2 (proj2
             (choice_ordered_backtracking [zero] [bit] (fail (lit "no")) st Hpre))))).
    eexists; reflexivity.
  - exact (proj2 (proj2 (proj2 (proj2
             (choice_ordered_backtracking [zero] [] bit st Hpre))))).
  - apply (proj1 (proj2 (proj2
             (choice_ordered_backtracking [] [succeed VNone] zero st8 (Forall_nil _))))).
    reflexivity.
Defined.

(** ** Repetition *)

Lemma repeat_loop_collects p st rs st' :
  iterates p st rs st' -> stops p st' ->
  forall fuel acc, (List.length rs < fuel)%nat ->
  repeat_loop fuel p st acc = Ok (update st' (index st') (VList (acc ++ rs))).
Proof.
  induction 1 as [st | st st1 rs st' Hp _ IH]; intros Hstop fuel acc Hfuel.
  - destruct fuel as [|fuel]; [simpl in Hfuel; lia|].
    cbn [repeat_loop]. rewrite app_nil_r.
    destruct Hstop as [msg [-> | ->]]; reflexivity.
  - destruct fuel as [|fuel]; [simpl in Hfuel; lia|].
    cbn [repeat_loop]. rewrite Hp.
    rewrite IH by (auto; simpl in Hfuel; lia).
    now rewrite <- app_assoc.
Qed.

(** A first attempt that fails, with whatever exception, makes [many]
    return the very cursor it was given. *)
Lemma many_first_failure fuel p st e :
  p st = Raise e -> many fuel p st = Ok st.
Proof. intros H. unfold many. now rewrite H. Qed.

(** After a first success, [many] collects the results up to the first
    failure of either kind. *)
Lemma many_collects fuel p st st1 rs st' :
  p st = Ok st1 -> iterates p st1 rs st' -> stops p st' ->
  (List.length rs < fuel)%nat ->
  many fuel p st = Ok (update st' (index st') (VList (result st1 :: rs))).
Proof.
  intros Hp Hit Hstop Hfuel. unfold many. rewrite Hp.
  now rewrite (repeat_loop_collects p st1 rs st').
Qed.

(** C4 (the code departs from the claim).  [many(one)] applied where [one]
    does not match, here to a fresh cursor on the byte [0x00]: the parse
    succeeds and the index stays 0, but the result is the [None] the
    cursor already held, not an empty sequence.  Where [one] matches
    once, on the byte [0x80], the exit of the loop does return the
    sequence of the results. *)
Theorem many_first_failure_keeps_result (fuel : nat) :
  Parser.parse (many fuel one) (Bytes [x00])
  = Ok (mkParserState (Bytes [x00]) 0 VNone)
  /\ VNone <> VList []
  /\ Parser.parse (many (S fuel) one) (Bytes [x80])
     = Ok (mkParserState (Bytes [x80]) 1 (VList [VInt 1])).
Proof.
  split; [|split; [discriminate | reflexivity]].
  unfold Parser.parse. apply many_first_failure with
    (e := ParseError (lit "Expected a one, but got a zero at index 0")).
  reflexivity.
Qed.

(** ** Separated lists *)

Lemma separated_by_loop_runs sep value st rs st' :
  alternation sep value st rs st' ->
  forall fuel acc,
  separated_by_loop (List.length rs + fuel) sep value st acc
  = separated_by_loop fuel sep value st' (acc ++ rs).
Proof.
  induction 1 as [st | st vs ss rs st' Hv Hs _ IH]; intros fuel acc.
  - now rewrite app_nil_r.
  - cbn [List.length Nat.add separated_by_loop]. rewrite Hv, Hs, IH.
    now rewrite <- app_assoc.
Qed.

(** C8, as amended.  After any number of rounds in which a value and the
    separator behind it both matched, reaching the cursor [st'] with the
    values [rs]: a mismatch of the next value ends the list at [st'], the
    last separator staying consumed; a mismatch of the separator behind
    one more value ends it right after that value; in both cases the
    combinator succeeds with all matched values.  A failure of the value
    or of the separator that is not a mismatch, such as end of input, is
    the failure of the combinator. *)
Theorem separated_by_stops_on_mismatch (sep value : Parser)
    (st st' : ParserState) (rs : list Value) (fuel : nat) :
  alternation sep value st rs st' -> (List.length rs < fuel)%nat ->
  (mismatches value st' ->
     separated_by fuel sep value st = Ok (mkParserState (source st') (index st') (VList rs)))
  /\ (forall vs, value st' = Ok vs -> mismatches sep vs ->
        separated_by fuel sep value st
        = Ok (mkParserState (source vs) (index vs) (VList (rs ++ [result vs]))))
  /\ (forall e, value st' = Raise e -> is_mismatch e = false ->
        separated_by fuel sep value st = Raise e)
  /\ (forall vs e, value st' = Ok vs -> sep vs = Raise e -> is_mismatch e = false ->
        separated_by fuel sep value st = Raise e).
Proof.
  intros Halt Hfuel. unfold separated_by.
  replace fuel with (List.length rs + S (fuel - S (List.length rs)))%nat by lia.
  rewrite (separated_by_loop_runs sep value st rs st' Halt).
  cbn [app separated_by_loop]. repeat split.
  - intros [msg ->]. reflexivity.
  - intros vs -> [msg ->]. reflexivity.
  - intros e -> He. destruct e; [discriminate | reflexivity | reflexivity].
  - intros vs e -> -> He. destruct e; [discriminate | reflexivity | reflexivity].
Qed.

(** On the bits [1010 0000]: two rounds of [one] then [zero], and the
    third [one] mismatches at bit 4. *)
Lemma separated_by_stops_on_mismatch_witness :
  separated_by 5 zero one (mkParserState (Bytes [xa0]) 0 VNone)
  = Ok (mkParserState (Bytes [xa0]) 4 (VList [VInt 1; VInt 1])).
Proof.
  refine (proj1 (separated_by_stops_on_mismatch zero one
                   (mkParserState (Bytes [xa0]) 0 VNone)
                   (mkParserState (Bytes [xa0]) 4 (VInt 0))
                   [VInt 1; VInt 1] 5 _ _) _).
  - eapply (alternation_step zero one _ (mkParserState (Bytes [xa0]) 1 (VInt 1)));
      [reflexivity | reflexivity |].
    eapply (alternation_step zero one _ (mkParserState (Bytes [xa0]) 3 (VInt 1)));
      [reflexivity | reflexivity |].
    apply alternation_done.
  - simpl. lia.
  - eexists. reflexivity.
Defined.

(** C8, as stated, fails.  On the bits [1010 0000] the values [one] match
    at bits 0 and 2, the last of them ending at index 3; the separator
    [zero] then matches bit 3 and no value follows it, yet the cursor
    returned stands at index 4, behind that separator.  On the bits
    [1010 1010] the value attempted at bit 8 meets the end of input, and
    the combinator itself fails with it. *)
Lemma separated_by_keeps_trailing_separator :
  one (mkParserState (Bytes [xa0]) 2 (VInt 0)) = Ok (mkParserState (Bytes [xa0]) 3 (VInt 1))
  /\ zero (mkParserState (Bytes [xa0]) 3 (VInt 1)) = Ok (mkParserState (Bytes [xa0]) 4 (VInt 0))
  /\ mismatches one (mkParserState (Bytes [xa0]) 4 (VInt 0))
  /\ separated_by 5 zero one (mkParserState (Bytes [xa0]) 0 VNone)
     = Ok (mkParserState (Bytes [xa0]) 4 (VList [VInt 1; VInt 1]))
  /\ separated_by 9 zero one (mkParserState (Bytes [xaa]) 0 VNone)
     = Raise (EOFError EOF_MESSAGE).
Proof.
  split; [reflexivity|]. split; [reflexivity|].
  split; [eexists; reflexivity|]. split; reflexivity.
Qed.

(** ** Byte-exact matching *)

Lemma stream_byte_range bs i : 0 <= stream_byte bs i < 256.
Proof.
  unfold stream_byte.
  pose proof (big_endian_range _ (bits_from_is_bit bs 8 i)) as H.
  now rewrite bits_from_length in H.
Qed.

Lemma expect_byte_reads st bs b :
  source st = Bytes bs -> 0 <= index st -> index st + 8 <= 8 * len (source st) ->
  expect_byte b st
  = if stream_byte bs (index st) =? b
    then Ok (update st (index st + 8) (VInt b))
    else Raise (ParseError (byte_mismatch b (stream_byte bs (index st)))).
Proof.
  intros Hs Hlo Hhi. unfold expect_byte, Parser.chain.
  rewrite (uint_reads st bs) by (auto; lia).
  cbn [result update].
  change (big_endian (bits_from bs (index st) (Z.to_nat 8)))
    with (stream_byte bs (index st)).
  pose proof (stream_byte_range bs (index st)) as [Hge Hlt].
  destruct (stream_byte bs (index st) =? b); [reflexivity|].
  destruct (Z.ltb_spec (stream_byte bs (index st)) 0) as [|_]; [lia|].
  destruct (Z.ltb_spec (16 * 65536 + 65535) (stream_byte bs (index st))) as [|_]; [lia|].
  reflexivity.
Qed.

Lemma sequence_of_loop_bytes bs pre : forall rest st acc,
  source st = Bytes bs -> 0 <= index st ->
  index st + 8 * Z.of_nat (List.length pre) <= 8 * len (source st) ->
  stream_bytes bs (index st) (List.length pre) = pre ->
  exists v,
    sequence_of_loop (List.map expect_byte (pre ++ rest)) st acc
    = sequence_of_loop (List.map expect_byte rest)
        (mkParserState (source st) (index st + 8 * Z.of_nat (List.length pre)) v)
        (acc ++ List.map VInt pre).
Proof.
  induction pre as [|b pre IH]; intros rest st acc Hs Hlo Hhi Hpre.
  - exists (result st).
    cbn [app List.length List.map]. rewrite Z.mul_0_r, Z.add_0_r, app_nil_r.
    now destruct st.
  - cbn [List.length stream_bytes] in Hpre, Hhi. injection Hpre as Hb Hpre.
    cbn [app List.map sequence_of_loop].
    rewrite (expect_byte_reads st bs) by (auto; lia).
    rewrite Hb, Z.eqb_refl.
    destruct (IH rest (update st (index st + 8) (VInt b)) (acc ++ [VInt b]))
      as [v Hv]; cbn [source index result update]; auto; try lia.
    exists v. rewrite Hv. cbn [source index result update].
    rewrite <- app_assoc. cbn [app List.length].
    now replace (index st + 8 + 8 * Z.of_nat (List.length pre))
      with (index st + 8 * Z.of_nat (S (List.length pre))) by lia.
Qed.

(** C6, as amended.  When the literal encodes to the bytes
    [pre ++ b :: post] and the stream at the cursor carries the bytes
    [pre] followed by a byte [r] other than [b], [raw_string] fails with
    the mismatch "Expected <chr(b)>, but got <chr(r)>.", which names the
    expected and the found byte as characters and no position.  A failure
    returns no cursor: an enclosing [choice] applies its next alternative
    to the cursor [raw_string] was given. *)
Theorem raw_string_first_mismatch (literal : PyStr) (pre post : list byte) (b : byte)
    (r : Z) (st : ParserState) (bs : list byte) :
  encode_utf8 literal = Return (pre ++ b :: post) ->
  source st = Bytes bs -> 0 <= index st ->
  index st + 8 * (Z.of_nat (List.length pre) + 1) <= 8 * len (source st) ->
  stream_bytes bs (index st) (List.length pre) = List.map byte_val pre ->
  stream_byte bs (index st + 8 * Z.of_nat (List.length pre)) = r ->
  r <> byte_val b ->
  raw_string literal st = Raise (ParseError (byte_mismatch (byte_val b) r))
  /\ forall q, choice [raw_string literal; q] st = choice [q] st.
Proof.
  intros Henc Hs Hlo Hhi Hpre Hr Hne.
  assert (H : raw_string literal st = Raise (ParseError (byte_mismatch (byte_val b) r))).
  { unfold raw_string, sequence_of. rewrite Henc.
    rewrite <- (List.map_map byte_val expect_byte), List.map_app.
    destruct (sequence_of_loop_bytes bs (List.map byte_val pre)
                (List.map byte_val (b :: post)) st [])
      as [v ->]; rewrite ?length_map; auto; try lia.
    cbn [List.map sequence_of_loop].
    rewrite (expect_byte_reads _ bs); cbn [source index update]; auto; try lia.
    rewrite Hr. apply Z.eqb_neq in Hne. now rewrite Hne. }
  split; [exact H|].
  intros q. cbn [choice]. now rewrite H.
Qed.

(** The literal "abc" against the bytes of "abd": the third byte differs. *)
Lemma raw_string_first_mismatch_witness :
  raw_string (lit "abc") (mkParserState (Bytes [x61; x62; x64]) 0 VNone)
  = Raise (ParseError (lit "Expected c, but got d."))
  /\ forall q, choice [raw_string (lit "abc"); q] (mkParserState (Bytes [x61; x62; x64]) 0 VNone)
               = choice [q] (mkParserState (Bytes [x61; x62; x64]) 0 VNone).
Proof.
  refine (raw_string_first_mismatch (lit "abc") [x61; x62] [] x63 100
            (mkParserState (Bytes [x61; x62; x64]) 0 VNone) [x61; x62; x64]
            _ _ _ _ _ _ _);
    [reflexivity | reflexivity | simpl; lia | simpl; lia | reflexivity | reflexivity |].
  change (byte_val x63) with 99. lia.
Defined.

(** C6, as stated, fails: the description does not name the position.
    The literal "aa" diverges from the bytes of "ba" at the first byte and
    from the bytes of "ab" at the second, and both failures carry the same
    description, "Expected a, but got b.". *)
Lemma raw_string_description_lacks_position :
  raw_string (lit "aa") (mkParserState (Bytes [x62; x61]) 0 VNone)
  = Raise (ParseError (lit "Expected a, but got b."))
  /\ raw_string (lit "aa") (mkParserState (Bytes [x61; x62]) 0 VNone)
     = Raise (ParseError (lit "Expected a, but got b.")).
Proof. split; reflexivity. Qed.

(** ** The IPv4 header *)

Lemma field_range bs off w : 0 <= w -> 0 <= field bs off w < 2 ^ w.
Proof.
  intros Hw. unfold field.
  pose proof (big_endian_range _ (bits_from_is_bit bs (Z.to_nat w) off)) as H.
  now rewrite bits_from_length, Z2Nat.id in H by lia.
Qed.

Lemma tagged_address_field bs off label :
  tagged_address label (VInt (field bs off 32))
  = Return (tag (lit label) (VStr (dotted (field bs off 32)))).
Proof.
  unfold tagged_address, dotted_quad.
  pose proof (field_range bs off 32 ltac:(lia)) as [Hlo Hhi].
  destruct (Z.ltb_spec (field bs off 32) 0) as [|_]; [lia|].
  destruct (Z.leb_spec (2 ^ 32) (field bs off 32)) as [|_]; [lia|].
  reflexivity.
Qed.

(** One step of [sequence_of] through a mapped [uint(n)]. *)
Lemma sequence_of_loop_field bs i r n j f v rest acc :
  0 <= n -> 0 <= i -> j = i + n -> j <= 8 * Z.of_nat (List.length bs) ->
  f (VInt (field bs i n)) = Return v ->
  sequence_of_loop (Parser.map (uint n) f :: rest) (mkParserState (Bytes bs) i r) acc
  = sequence_of_loop rest (mkParserState (Bytes bs) j v) (acc ++ [v]).
Proof.
  intros Hn Hi -> Hj Hf. cbn [sequence_of_loop]. unfold Parser.map at 1.
  rewrite (uint_reads _ bs) by (cbn [source index len]; auto; lia).
  cbn [result update index source]. fold (field bs i n). now rewrite Hf.
Qed.

Lemma sequence_of_loop_octets bs k : forall i r acc,
  0 <= i -> i + 8 * Z.of_nat k <= 8 * Z.of_nat (List.length bs) ->
  sequence_of_loop (repeat (uint 8) k) (mkParserState (Bytes bs) i r) acc
  = Ok (mkParserState (Bytes bs) (i + 8 * Z.of_nat k)
          (VList (acc ++ List.map VInt (stream_bytes bs i k)))).
Proof.
  induction k as [|k IH]; intros i r acc Hi Hk.
  - cbn [repeat sequence_of_loop stream_bytes List.map update index source].
    now rewrite Z.mul_0_r, Z.add_0_r, app_nil_r.
  - cbn [repeat sequence_of_loop stream_bytes List.map].
    rewrite (uint_reads _ bs) by (cbn [source index len]; auto; lia).
    unfold update at 1. cbn [source index result].
    rewrite IH by lia.
    rewrite <- app_assoc. cbn [app]. unfold stream_byte.
    now replace (i + 8 + 8 * Z.of_nat k) with (i + 8 * Z.of_nat (S k)) by lia.
Qed.

(** The thirteen fixed fields, on every buffer of at least twenty bytes. *)
Lemma fixed_fields_read bs :
  (20 <= List.length bs)%nat ->
    sequence_of [
       Parser.map (uint 4) (tagged "Version");
       Parser.map (uint 4) (tagged "IHL");
       Parser.map (uint 6) (tagged "DSCP");
       Parser.map (uint 2) (tagged "ECN");
       Parser.map (uint 16) (tagged "Total Length");
       Parser.map (uint 16) (tagged "Identification");
       Parser.map (uint 3) (tagged "Flags");
       Parser.map (uint 13) (tagged "Fragment Offset");
       Parser.map (uint 8) (tagged "TTL");
       Parser.map (uint 8) (tagged "Protocol");
       Parser.map (uint 16) (tagged "Header Checksum");
       Parser.map (uint 32) (tagged_address "Source IP");
       Parser.map (uint 32) (tagged_address "Destination IP")
     ] (mkParserState (Bytes bs) 0 VNone)
    = Ok (mkParserState (Bytes bs) 160 (VList (fixed_fields bs))).
Proof.
  intros Hlen. unfold sequence_of.
  rewrite (sequence_of_loop_field bs 0 _ 4 4 (tagged "Version") _ _ _
             ltac:(lia) ltac:(lia) eq_refl ltac:(lia) eq_refl).
  rewrite (sequence_of_loop_field bs 4 _ 4 8 (tagged "IHL") _ _ _
             ltac:(lia) ltac:(lia) eq_refl ltac:(lia) eq_refl).
  rewrite (sequence_of_loop_field bs 8 _ 6 14 (tagged "DSCP") _ _ _
             ltac:(lia) ltac:(lia) eq_refl ltac:(lia) eq_refl).
  rewrite (sequence_of_loop_field bs 14 _ 2 16 (tagged "ECN") _ _ _
             ltac:(lia) ltac:(lia) eq_refl ltac:(lia) eq_refl).
  rewrite (sequence_of_loop_field bs 16 _ 16 32 (tagged "Total Length") _ _ _
             ltac:(lia) ltac:(lia) eq_refl ltac:(lia) eq_refl).
  rewrite (sequence_of_loop_field bs 32 _ 16 48 (tagged "Identification") _ _ _
             ltac:(lia) ltac:(lia) eq_refl ltac:(lia) eq_refl).
  rewrite (sequence_of_loop_field bs 48 _ 3 51 (tagged "Flags") _ _ _
             ltac:(lia) ltac:(lia) eq_refl ltac:(lia) eq_refl).
  rewrite (sequence_of_loop_field bs 51 _ 13 64 (tagged "Fragment Offset") _ _ _
             ltac:(lia) ltac:(lia) eq_refl ltac:(lia) eq_refl).
  rewrite (sequence_of_loop_field bs 64 _ 8 72 (tagged "TTL") _ _ _
             ltac:(lia) ltac:(lia) eq_refl ltac:(lia) eq_refl).
  rewrite (sequence_of_loop_field bs 72 _ 8 80 (tagged "Protocol") _ _ _
             ltac:(lia) ltac:(lia) eq_refl ltac:(lia) eq_refl).
  rewrite (sequence_of_loop_field bs 80 _ 16 96 (tagged "Header Checksum") _ _ _
             ltac:(lia) ltac:(lia) eq_refl ltac:(lia) eq_refl).
  rewrite (sequence_of_loop_field bs 96 _ 32 128 (tagged_address "Source IP") _ _ _
             ltac:(lia) ltac:(lia) eq_refl ltac:(lia)
             (tagged_address_field bs 96 "Source IP")).
  rewrite (sequence_of_loop_field bs 128 _ 32 160 (tagged_address "Destination IP") _ _ _
             ltac:(lia) ltac:(lia) eq_refl ltac:(lia)
             (tagged_address_field bs 128 "Destination IP")).
  reflexivity.
Qed.

Lemma ihl_of_fixed_fields bs :
  subscript (VList (fixed_fields bs)) 1 = Return (tag (lit "IHL") (VInt (field bs 4 4))).
Proof. reflexivity. Qed.

Lemma value_of_tag label v : subscript (tag label v) 1 = Return v.
Proof. reflexivity. Qed.

(** X22.  What the grammar returns on every buffer: with an IHL of at most 5
    the thirteen tagged fields after 160 bits; with a larger IHL and eight
    more bytes, after 224 bits, those fields followed by the string
    'Options' and by the list of the eight bytes, as two elements. *)
Lemma ipv4_header_parser_result bs :
  (20 <= List.length bs)%nat ->
  (field bs 4 4 <= 5 ->
     Parser.parse ipv4_header_parser (Bytes bs)
     = Ok (mkParserState (Bytes bs) 160 (VList (fixed_fields bs))))
  /\ (5 < field bs 4 4 -> (28 <= List.length bs)%nat ->
        Parser.parse ipv4_header_parser (Bytes bs)
        = Ok (mkParserState (Bytes bs) 224
                (VList (fixed_fields bs ++
                        [VStr (lit "Options");
                         VList (List.map VInt (stream_bytes bs 160 8))])))).
Proof.
  intros Hlen.
  pose proof (fixed_fields_read bs Hlen) as Hfixed.
  assert (Hrun : Parser.parse ipv4_header_parser (Bytes bs)
                 = match options_handler (VList (fixed_fields bs)) with
                   | Return next_parser =>
                       next_parser (mkParserState (Bytes bs) 160 (VList (fixed_fields bs)))
                   | Throw e => Raise e
                   end).
  { unfold Parser.parse, ipv4_header_parser, Parser.chain. now rewrite Hfixed. }
  rewrite Hrun. unfold options_handler.
  rewrite ihl_of_fixed_fields, value_of_tag. split.
  - intros Hihl. destruct (Z.gtb_spec (field bs 4 4) 5) as [|_]; [lia|]. reflexivity.
  - intros Hihl Hlen28. destruct (Z.gtb_spec (field bs 4 4) 5) as [_|]; [|lia].
    unfold Parser.chain, sequence_of.
    rewrite (sequence_of_loop_octets bs 8 160) by lia.
    reflexivity.
Qed.

(** C5 (the code departs from the claim).  With IHL = 5 the sample header
    parses to its thirteen tagged fields, 160 bits consumed.  With
    IHL = 6 and eight more bytes the parse consumes 224 bits, but the
    result has fifteen elements: the thirteen tagged fields, then the bare
    string 'Options', then the bare list of the eight option bytes; there
    is no fourteenth tagged field. *)
Theorem ipv4_options_are_not_tagged :
  Parser.parse ipv4_header_parser (Bytes (sample_header x45))
  = Ok (mkParserState (Bytes (sample_header x45)) 160 (VList (sample_fields 5)))
  /\ Parser.parse ipv4_header_parser (Bytes (sample_header x46 ++ sample_options))
     = Ok (mkParserState (Bytes (sample_header x46 ++ sample_options)) 224
             (VList (sample_fields 6 ++
                     [VStr (lit "Options");
                      VList [VInt 1; VInt 2; VInt 3; VInt 4; VInt 5; VInt 6; VInt 7; VInt 8]])))
  /\ List.length (sample_fields 6 ++
                  [VStr (lit "Options");
                   VList [VInt 1; VInt 2; VInt 3; VInt 4; VInt 5; VInt 6; VInt 7; VInt 8]])
     = 15%nat.
Proof. repeat split; vm_compute; reflexivity. Qed.

(** ** Cursors are never changed, and only move forward *)

Lemma preserves_refl h : preserves h h.
Proof. exists []. now rewrite app_nil_r. Qed.

Lemma preserves_trans h1 h2 h3 : preserves h1 h2 -> preserves h2 h3 -> preserves h1 h3.
Proof. intros [c1 ->] [c2 ->]. exists (c1 ++ c2). now rewrite app_assoc. Qed.

Lemma preserves_length h h' : preserves h h' -> (List.length h <= List.length h')%nat.
Proof. intros [c ->]. rewrite length_app. lia. Qed.

Lemma preserves_deref h h' r :
  preserves h h' -> (r < List.length h)%nat -> Store.deref h' r = Store.deref h r.
Proof. intros [c ->] Hr. unfold Store.deref. now rewrite app_nth1. Qed.

Lemma deref_new h x : Store.deref (h ++ [x]) (List.length h) = x.
Proof. unfold Store.deref. now rewrite nth_middle. Qed.

(** [update] creates a cursor and touches no other. *)
Lemma return_update_agrees h0 r0 h r i v po :
  (r < List.length h)%nat ->
  source (Store.deref h r) = source (Store.deref h0 r0) ->
  index (Store.deref h0 r0) <= i ->
  po = Ok (update (Store.deref h r) i v) ->
  forall h' o, Store.return_update h r i v = (h', o) ->
  preserves h h' /\ agrees h0 r0 h' o po.
Proof.
  intros Hr Hsrc Hidx -> h' o H.
  unfold Store.return_update, Store.update, Store.new in H. injection H as <- <-.
  split; [now eexists|].
  cbn [agrees]. rewrite deref_new, length_app. cbn [List.length source index].
  repeat split; try lia; auto.
Qed.

(** Chaining two runs: what held from [(h, r)] to [(h1, r1)] and from
    there to the outcome [o] holds from [(h, r)] to [o]. *)
Lemma agrees_trans h r h1 r1 h' o po :
  (r < List.length h)%nat ->
  source (Store.deref h1 r1) = source (Store.deref h r) ->
  index (Store.deref h r) <= index (Store.deref h1 r1) ->
  agrees h1 r1 h' o po -> agrees h r h' o po.
Proof.
  intros Hr Hsrc Hidx. destruct o; cbn [agrees]; auto.
  intros (? & ? & ? & ?). repeat split; auto; try congruence; lia.
Qed.

Ltac run_of H :=
  match goal with
  | Hm : models ?hp ?p, E : ?hp ?h ?r = (?h1, ?o1) |- _ =>
      let Hp := fresh "Hpres" in
      let Ha := fresh "Hag" in
      destruct (Hm h r h1 o1 H E) as [Hp Ha]; cbn [agrees] in Ha
  end.

Lemma string_models t : models (Store.string t) (string t).
Proof.
  intros h r h' o Hr H. unfold Store.string in H. unfold string.
  destruct (_ >? _).
  - injection H as <- <-. split; [apply preserves_refl | reflexivity].
  - destruct (target (Store.deref h r)) as [s|b].
    + destruct (startswith s t).
      * eapply return_update_agrees; eauto; lia.
      * injection H as <- <-. split; [apply preserves_refl | reflexivity].
    + injection H as <- <-. split; [apply preserves_refl | reflexivity].
Qed.

Lemma match_class_models f what : models (Store.match_class f what) (match_class f what).
Proof.
  intros h r h' o Hr H. unfold Store.match_class in H. unfold match_class.
  destruct (_ =? _).
  - injection H as <- <-. split; [apply preserves_refl | reflexivity].
  - destruct (target (Store.deref h r)) as [[|c s]|b].
    + injection H as <- <-. split; [apply preserves_refl | reflexivity].
    + destruct (f c).
      * eapply return_update_agrees; eauto; lia.
      * injection H as <- <-. split; [apply preserves_refl | reflexivity].
    + injection H as <- <-. split; [apply preserves_refl | reflexivity].
Qed.

Lemma bit_models : models Store.bit bit.
Proof.
  intros h r h' o Hr H. unfold Store.bit in H. unfold bit.
  destruct (fetch_bit (Store.deref h r)).
  - eapply return_update_agrees; eauto; lia.
  - injection H as <- <-. split; [apply preserves_refl | reflexivity].
Qed.

Lemma zero_models : models Store.zero zero.
Proof.
  intros h r h' o Hr H. unfold Store.zero in H. unfold zero.
  destruct (fetch_bit (Store.deref h r)) as [b|e].
  - destruct (negb (b =? 0)).
    + injection H as <- <-. split; [apply preserves_refl | reflexivity].
    + eapply return_update_agrees; eauto; lia.
  - injection H as <- <-. split; [apply preserves_refl | reflexivity].
Qed.

Lemma one_models : models Store.one one.
Proof.
  intros h r h' o Hr H. unfold Store.one in H. unfold one.
  destruct (fetch_bit (Store.deref h r)) as [b|e].
  - destruct (negb (b =? 1)).
    + injection H as <- <-. split; [apply preserves_refl | reflexivity].
    + eapply return_update_agrees; eauto; lia.
  - injection H as <- <-. split; [apply preserves_refl | reflexivity].
Qed.

Lemma succeed_models v : models (Store.succeed v) (succeed v).
Proof.
  intros h r h' o Hr H. unfold Store.succeed in H. unfold succeed.
  eapply return_update_agrees; eauto; lia.
Qed.

Lemma fail_models msg : models (Store.fail msg) (fail msg).
Proof.
  intros h r h' o Hr H. injection H as <- <-.
  split; [apply preserves_refl | reflexivity].
Qed.

Ltac finish_failure H :=
  injection H as <- <-; split; [assumption || apply preserves_refl | cbn [agrees]; first [reflexivity | congruence]].

Lemma map_models hp p f : models hp p -> models (Store.map hp f) (Parser.map p f).
Proof.
  intros Hm h r h' o Hr H. unfold Store.map in H. unfold Parser.map.
  destruct (hp h r) as [h1 o1] eqn:E. run_of Hr.
  destruct o1 as [r1|e|].
  - destruct Hag as (Hr1 & -> & Hs & Hi).
    destruct (f (result (Store.deref h1 r1))) as [v|e].
    + eapply (return_update_agrees h r) in H; eauto.
      destruct H. split; [eapply preserves_trans; eauto | assumption].
    + finish_failure H.
  - rewrite Hag. finish_failure H.
  - rewrite Hag. finish_failure H.
Qed.

Lemma chain_models hp p hf f :
  models hp p ->
  (forall v e, hf v = Throw e <-> f v = Throw e) ->
  (forall v hq q, hf v = Return hq -> f v = Return q -> models hq q) ->
  models (Store.chain hp hf) (Parser.chain p f).
Proof.
  intros Hm Hthrow Hret h r h' o Hr H. unfold Store.chain in H. unfold Parser.chain.
  destruct (hp h r) as [h1 o1] eqn:E. run_of Hr.
  destruct o1 as [r1|e|].
  - destruct Hag as (Hr1 & -> & Hs & Hi).
    destruct (hf (result (Store.deref h1 r1))) as [hq|e] eqn:Ehf.
    + destruct (f (result (Store.deref h1 r1))) as [q|e] eqn:Ef.
      * destruct (Hret _ _ _ Ehf Ef h1 r1 h' o Hr1 H) as [Hp2 Ha2].
        split; [eapply preserves_trans; eauto|].
        eapply agrees_trans; eauto.
      * apply Hthrow in Ef. congruence.
    + apply Hthrow in Ehf. rewrite Ehf. finish_failure H.
  - rewrite Hag. finish_failure H.
  - rewrite Hag. finish_failure H.
Qed.

Lemma error_map_models hp p f :
  models hp p -> models (Store.error_map hp f) (Parser.error_map p f).
Proof.
  intros Hm h r h' o Hr H. unfold Store.error_map in H. unfold Parser.error_map.
  destruct (hp h r) as [h1 o1] eqn:E. run_of Hr.
  pose proof (preserves_deref h h1 r Hpres Hr) as Hd.
  pose proof (preserves_length h h1 Hpres) as Hl.
  destruct o1 as [r1|e|].
  - destruct Hag as (Hr1 & -> & Hs & Hi). injection H as <- <-.
    split; [assumption|]. cbn [agrees]. auto.
  - rewrite Hag. destruct e as [msg|msg|cls]; try finish_failure H.
    rewrite Hd in H.
    destruct (f msg (index (Store.deref h r))) as [v|e].
    + eapply (return_update_agrees h r) in H; try rewrite Hd; eauto; try lia.
      destruct H. split; [eapply preserves_trans; eauto | assumption].
    + finish_failure H.
  - rewrite Hag. finish_failure H.
Qed.

Lemma sequence_of_loop_models pairs :
  (forall hq q, In (hq, q) pairs -> models hq q) ->
  forall h0 r0 h r acc h' o,
  (r < List.length h)%nat ->
  source (Store.deref h r) = source (Store.deref h0 r0) ->
  index (Store.deref h0 r0) <= index (Store.deref h r) ->
  Store.sequence_of_loop (List.map fst pairs) h r acc = (h', o) ->
  preserves h h'
  /\ agrees h0 r0 h' o (sequence_of_loop (List.map snd pairs) (Store.deref h r) acc).
Proof.
  induction pairs as [|[hq q] pairs IH]; intros Hall h0 r0 h r acc h' o Hr Hs0 Hi0 H;
    cbn [List.map fst snd Store.sequence_of_loop sequence_of_loop] in *.
  - eapply return_update_agrees; eauto.
  - assert (Hm : models hq q) by (apply Hall; now left).
    destruct (hq h r) as [h1 o1] eqn:E. run_of Hr.
    destruct o1 as [r1|e|].
    + destruct Hag as (Hr1 & -> & Hs & Hi).
      apply (IH (fun hq' q' Hin => Hall hq' q' (or_intror Hin)) h0 r0) in H;
        try congruence; try lia.
      destruct H. split; [eapply preserves_trans; eauto | assumption].
    + rewrite Hag. finish_failure H.
    + rewrite Hag. finish_failure H.
Qed.

Lemma sequence_of_models pairs :
  (forall hq q, In (hq, q) pairs -> models hq q) ->
  models (Store.sequence_of (List.map fst pairs)) (sequence_of (List.map snd pairs)).
Proof.
  intros Hall h r h' o Hr H. unfold Store.sequence_of in H. unfold sequence_of.
  eapply sequence_of_loop_models; eauto. lia.
Qed.

Lemma choice_models pairs :
  (forall hq q, In (hq, q) pairs -> models hq q) ->
  models (Store.choice (List.map fst pairs)) (choice (List.map snd pairs)).
Proof.
  induction pairs as [|[hq q] pairs IH]; intros Hall h r h' o Hr H;
    cbn [List.map fst snd Store.choice choice] in *.
  - finish_failure H.
  - assert (Hm : models hq q) by (apply Hall; now left).
    destruct (hq h r) as [h1 o1] eqn:E. run_of Hr.
    pose proof (preserves_deref h h1 r Hpres Hr) as Hd.
    pose proof (preserves_length h h1 Hpres) as Hl.
    destruct o1 as [r1|e|].
    + destruct Hag as (Hr1 & -> & Hs & Hi). injection H as <- <-.
      split; [assumption|]. cbn [agrees]. auto.
    + rewrite Hag. destruct e as [msg|msg|cls]; try finish_failure H.
      destruct (IH (fun hq' q' Hin => Hall hq' q' (or_intror Hin)) h1 r h' o
                  ltac:(lia) H) as [Hp2 Ha2].
      rewrite Hd in Ha2.
      split; [eapply preserves_trans; eauto|].
      apply (agrees_trans h r h1 r h' o _ Hr);
        [now rewrite Hd | rewrite Hd; lia | exact Ha2].
    + rewrite Hag. finish_failure H.
Qed.

Lemma repeat_loop_models hp p :
  models hp p ->
  forall fuel h0 r0 h r acc h' o,
  (r < List.length h)%nat ->
  source (Store.deref h r) = source (Store.deref h0 r0) ->
  index (Store.deref h0 r0) <= index (Store.deref h r) ->
  Store.repeat_loop fuel hp h r acc = (h', o) ->
  preserves h h' /\ agrees h0 r0 h' o (repeat_loop fuel p (Store.deref h r) acc).
Proof.
  intros Hm. induction fuel as [|fuel IH]; intros h0 r0 h r acc h' o Hr Hs0 Hi0 H;
    cbn [Store.repeat_loop repeat_loop] in *.
  - finish_failure H.
  - destruct (hp h r) as [h1 o1] eqn:E. run_of Hr.
    pose proof (preserves_deref h h1 r Hpres Hr) as Hd.
    pose proof (preserves_length h h1 Hpres) as Hl.
    destruct o1 as [r1|e|].
    + destruct Hag as (Hr1 & -> & Hs & Hi).
      apply (IH h0 r0) in H; try congruence; try lia.
      destruct H. split; [eapply preserves_trans; eauto | assumption].
    + rewrite Hag.
      destruct e as [msg|msg|cls]; try finish_failure H;
        (eapply (return_update_agrees h0 r0) in H; try rewrite Hd; eauto; try lia;
         destruct H; split; [eapply preserves_trans; eauto | assumption]).
    + rewrite Hag. finish_failure H.
Qed.

Lemma many_models fuel hp p : models hp p -> models (Store.many fuel hp) (many fuel p).
Proof.
  intros Hm h r h' o Hr H. unfold Store.many in H. unfold many.
  destruct (hp h r) as [h1 o1] eqn:E. run_of Hr.
  pose proof (preserves_deref h h1 r Hpres Hr) as Hd.
  pose proof (preserves_length h h1 Hpres) as Hl.
  destruct o1 as [r1|e|].
  - destruct Hag as (Hr1 & -> & Hs & Hi).
    apply (repeat_loop_models hp p Hm fuel h r) in H; auto.
    destruct H. split; [eapply preserves_trans; eauto | assumption].
  - rewrite Hag. injection H as <- <-. split; [assumption|].
    cbn [agrees]. rewrite Hd. repeat split; auto; lia.
  - rewrite Hag. finish_failure H.
Qed.

Lemma many1_models fuel hp p : models hp p -> models (Store.many1 fuel hp) (many1 fuel p).
Proof.
  intros Hm h r h' o Hr H. unfold Store.many1 in H. unfold many1.
  destruct (hp h r) as [h1 o1] eqn:E. run_of Hr.
  destruct o1 as [r1|e|].
  - destruct Hag as (Hr1 & -> & Hs & Hi).
    apply (repeat_loop_models hp p Hm fuel h r) in H; auto.
    destruct H. split; [eapply preserves_trans; eauto | assumption].
  - rewrite Hag. finish_failure H.
  - rewrite Hag. finish_failure H.
Qed.

Lemma lazy_models ht t : models (ht tt) (t tt) -> models (Store.lazy ht) (lazy t).
Proof. intros Hm h r h' o Hr H. exact (Hm h r h' o Hr H). Qed.

Lemma between_models hl l hr r hc c :
  models hl l -> models hr r -> models hc c ->
  models (Store.between hl hr hc) (between l r c).
Proof.
  intros Hl Hr Hc. unfold Store.between, between. apply map_models.
  apply (sequence_of_models [(hl, l); (hc, c); (hr, r)]).
  intros hq q [E | [E | [E | []]]]; injection E as <- <-; assumption.
Qed.

Lemma separated_by_loop_models hs s hv v :
  models hs s -> models hv v ->
  forall fuel h0 r0 h r acc h' o,
  (r < List.length h)%nat ->
  source (Store.deref h r) = source (Store.deref h0 r0) ->
  index (Store.deref h0 r0) <= index (Store.deref h r) ->
  Store.separated_by_loop fuel hs hv h r acc = (h', o) ->
  preserves h h' /\ agrees h0 r0 h' o (separated_by_loop fuel s v (Store.deref h r) acc).
Proof.
  intros Hs Hv. induction fuel as [|fuel IH]; intros h0 r0 h r acc h' o Hr Hs0 Hi0 H;
    cbn [Store.separated_by_loop separated_by_loop] in *.
  - finish_failure H.
  - destruct (hv h r) as [h1 o1] eqn:E.
    destruct (Hv h r h1 o1 Hr E) as [Hpres Hag]; cbn [agrees] in Hag.
    pose proof (preserves_deref h h1 r Hpres Hr) as Hd.
    pose proof (preserves_length h h1 Hpres) as Hl.
    destruct o1 as [r1|e|].
    + destruct Hag as (Hr1 & -> & Hsrc & Hidx).
      destruct (hs h1 r1) as [h2 o2] eqn:E2.
      destruct (Hs h1 r1 h2 o2 Hr1 E2) as [Hpres2 Hag2]; cbn [agrees] in Hag2.
      pose proof (preserves_deref h1 h2 r1 Hpres2 Hr1) as Hd2.
      pose proof (preserves_length h1 h2 Hpres2) as Hl2.
      assert (Hp02 : preserves h h2) by (eapply preserves_trans; eauto).
      destruct o2 as [r2|e|].
      * destruct Hag2 as (Hr2 & -> & Hsrc2 & Hidx2).
        apply (IH h0 r0) in H; try congruence; try lia.
        destruct H. split; [eapply preserves_trans; eauto | assumption].
      * rewrite Hag2.
        destruct e as [msg|msg|cls]; try finish_failure H.
        eapply (return_update_agrees h0 r0) in H; try rewrite Hd2; eauto;
          try congruence; try lia.
        destruct H; split; [eapply preserves_trans; eauto | assumption].
      * rewrite Hag2. finish_failure H.
    + rewrite Hag.
      destruct e as [msg|msg|cls]; try finish_failure H.
      eapply (return_update_agrees h0 r0) in H; try rewrite Hd; eauto; try lia.
      destruct H; split; [eapply preserves_trans; eauto | assumption].
    + rewrite Hag. finish_failure H.
Qed.

Lemma separated_by_models fuel hs s hv v :
  models hs s -> models hv v ->
  models (Store.separated_by fuel hs hv) (separated_by fuel s v).
Proof.
  intros Hs Hv h r h' o Hr H. unfold Store.separated_by in H. unfold separated_by.
  eapply separated_by_loop_models; eauto. lia.
Qed.

(** Every parser of the library keeps the discipline. *)
Lemma library_models hp p : library hp p -> models hp p.
Proof.
  induction 1 as
    [ hp p Hm | t | f | f | | | | v | msg
    | hp p f _ IH | hp p hf f _ IH Hthrow _ IHret | hp p f _ IH
    | pairs _ IH | pairs _ IH
    | fuel hp p _ IH | fuel hp p _ IH | ht t _ IH
    | hl l hr r hc c _ IHl _ IHr _ IHc
    | fuel hs s hv v _ IHs _ IHv ].
  - exact Hm.
  - apply string_models.
  - apply match_class_models.
  - apply match_class_models.
  - apply bit_models.
  - apply zero_models.
  - apply one_models.
  - apply succeed_models.
  - apply fail_models.
  - now apply map_models.
  - now apply chain_models.
  - now apply error_map_models.
  - now apply sequence_of_models.
  - now apply choice_models.
  - now apply many_models.
  - now apply many1_models.
  - now apply lazy_models.
  - now apply between_models.
  - now apply separated_by_models.
Qed.

(** At the level of values: a parser of the library returns a cursor over
    the same source, at an index that is not smaller. *)
Lemma library_advances hp p st st' :
  library hp p -> p st = Ok st' -> source st' = source st /\ index st <= index st'.
Proof.
  intros Hlib Hp.
  destruct (hp [st] 0%nat) as [h' o] eqn:E.
  destruct (library_models hp p Hlib [st] 0%nat h' o (Nat.lt_0_1) E) as [_ Hag].
  change (Store.deref [st] 0%nat) with st in Hag.
  destruct o; cbn [agrees] in Hag; try congruence.
  destruct Hag as (_ & Heq & Hs & Hi). rewrite Hp in Heq. injection Heq as ->.
  auto.
Qed.



(** The numeric decoders are parsers of the library. *)
Lemma bits_library k :
  forall hq q, In (hq, q) (repeat (Store.bit, bit) k) -> library hq q.
Proof. intros hq q Hin. apply repeat_spec in Hin. injection Hin as -> ->. apply lib_bit. Qed.

Lemma bits_fst k : repeat Store.bit k = List.map fst (repeat (Store.bit, bit) k).
Proof. now rewrite map_repeat. Qed.

Lemma bits_snd k : repeat bit k = List.map snd (repeat (Store.bit, bit) k).
Proof. now rewrite map_repeat. Qed.

Lemma uint_library n : library (Store.uint n) (uint n).
Proof.
  unfold Store.uint, uint. apply lib_map.
  rewrite (bits_fst (Z.to_nat n)), (bits_snd (Z.to_nat n)).
  apply lib_sequence_of, bits_library.
Qed.

Lemma int_library n : library (Store.int n) (int n).
Proof.
  unfold Store.int, int. apply lib_map.
  rewrite (bits_fst (Z.to_nat n)), (bits_snd (Z.to_nat n)).
  apply lib_sequence_of, bits_library.
Qed.

(** ** The entry point *)

(** C7, as amended.  [parse] applies the wrapped function to the fresh
    cursor [(input, 0, None)] and returns what that call returns: on
    success the final cursor, whose [result] field holds the result of the
    outermost combinator, and otherwise the failure that escaped.  For a
    parser of the library the cursor returned is a cursor over the input,
    at an index that is not negative. *)
Theorem parse_returns_final_cursor (p : Parser) (input : Source) :
  Parser.parse p input = p (mkParserState input 0 VNone)
  /\ forall hp final,
       library hp p -> Parser.parse p input = Ok final ->
       source final = input /\ 0 <= index final.
Proof.
  split; [reflexivity|].
  intros hp final Hlib Hp. unfold Parser.parse in Hp.
  destruct (library_advances hp p _ _ Hlib Hp) as [Hs Hi].
  auto.
Qed.

(** [uint(4)] on the byte [0x45]: the value returned is the cursor at
    index 4, and the decoded 4 is its [result] field. *)
Lemma parse_returns_final_cursor_witness :
  Parser.parse (uint 4) (Bytes [x45]) = Ok (mkParserState (Bytes [x45]) 4 (VInt 4))
  /\ source (mkParserState (Bytes [x45]) 4 (VInt 4)) = Bytes [x45]
  /\ 0 <= index (mkParserState (Bytes [x45]) 4 (VInt 4)).
Proof.
  destruct (parse_returns_final_cursor (uint 4) (Bytes [x45])) as [Hrun Hfinal].
  split; [rewrite Hrun; reflexivity|].
  apply (Hfinal (Store.uint 4) _ (uint_library 4)). reflexivity.
Defined.

(** C7, as stated, fails: were the value returned by [parse] the result of
    the outermost combinator, two parses with the same result would return
    the same value; [bit] and [succeed(1)] on the byte [0x80] both have
    result 1, yet [parse] returns different cursors (index 1 and 0). *)
Lemma parse_returns_cursor_not_result :
  Parser.parse bit (Bytes [x80]) = Ok (mkParserState (Bytes [x80]) 1 (VInt 1))
  /\ Parser.parse (succeed (VInt 1)) (Bytes [x80])
     = Ok (mkParserState (Bytes [x80]) 0 (VInt 1))
  /\ Parser.parse bit (Bytes [x80]) <> Parser.parse (succeed (VInt 1)) (Bytes [x80]).
Proof. repeat split. discriminate. Qed.

(** * Further properties of the combinators *)

(** ** Sequencing *)

Lemma sequence_of_loop_threads ps st rs st' :
  threads ps st rs st' ->
  forall rest acc,
  sequence_of_loop (ps ++ rest) st acc = sequence_of_loop rest st' (acc ++ rs).
Proof.
  induction 1 as [st | p ps st st1 rs st' Hp _ IH]; intros rest acc.
  - now rewrite app_nil_r.
  - cbn [app sequence_of_loop]. rewrite Hp, IH. now rewrite <- app_assoc.
Qed.

(** X1.  [sequence_of] is all or nothing.  When the parsers [ps] succeed
    one after the other, [sequence_of(ps)] returns the cursor the last one
    reached, with the list of their results in order.  When a further
    parser then fails, the sequence fails with that very failure, whatever
    stands behind it; nothing of the sequence is kept, so an enclosing
    [choice] that sees a mismatch applies its next alternative to the
    cursor the sequence started from. *)
Theorem sequence_of_all_or_nothing (ps : list Parser) (st st' : ParserState)
    (rs : list Value) :
  threads ps st rs st' ->
  sequence_of ps st = Ok (mkParserState (source st') (index st') (VList rs))
  /\ (forall p post e, p st' = Raise e -> sequence_of (ps ++ p :: post) st = Raise e)
  /\ (forall p post msg q, p st' = Raise (ParseError msg) ->
        choice [sequence_of (ps ++ p :: post); q] st = choice [q] st).
Proof.
  intros Hth.
  assert (Hfail : forall p post e, p st' = Raise e ->
                    sequence_of (ps ++ p :: post) st = Raise e).
  { intros p post e Hp. unfold sequence_of.
    rewrite (sequence_of_loop_threads ps st rs st' Hth).
    cbn [sequence_of_loop]. now rewrite Hp. }
  split; [|split; [exact Hfail|]].
  - unfold sequence_of. rewrite <- (app_nil_r ps).
    now rewrite (sequence_of_loop_threads ps st rs st' Hth).
  - intros p post msg q Hp. cbn [choice]. now rewrite (Hfail p post _ Hp).
Qed.

(** On the bits [10...]: [one] then [zero] succeed; a third parser [one]
    mismatches at bit 2 and the whole sequence fails. *)
Lemma sequence_of_all_or_nothing_witness :
  let st := mkParserState (Bytes [x80]) 0 VNone in
  sequence_of [one; zero] st = Ok (mkParserState (Bytes [x80]) 2 (VList [VInt 1; VInt 0]))
  /\ sequence_of ([one; zero] ++ one :: [bit]) st
     = Raise (ParseError (lit "Expected a one, but got a zero at index 2"))
  /\ choice [sequence_of ([one; zero] ++ one :: [bit]); bit] st = choice [bit] st.
Proof.
  intros st.
  assert (Hth : threads [one; zero] st [VInt 1; VInt 0]
                  (mkParserState (Bytes [x80]) 2 (VInt 0))).
  { apply (threads_cons one [zero] st (mkParserState (Bytes [x80]) 1 (VInt 1)));
      [reflexivity|].
    apply (threads_cons zero [] _ (mkParserState (Bytes [x80]) 2 (VInt 0)));
      [reflexivity|].
    apply threads_nil. }
  destruct (sequence_of_all_or_nothing _ _ _ _ Hth) as (Hok & Hfail & Hback).
  split; [exact Hok|]. split.
  - apply Hfail. reflexivity.
  - apply (Hback one [bit] (lit "Expected a one, but got a zero at index 2")).
    reflexivity.
Defined.

(** ** Alternation *)

Lemma choice_mismatch_is_aggregate ps : forall st msg,
  choice ps st = Raise (ParseError msg) -> msg = no_alternative st.
Proof.
  induction ps as [|p ps IH]; intros st msg H; cbn [choice] in H.
  - now injection H as <-.
  - destruct (p st) as [next|[m|m|cls]|]; try discriminate; now apply IH.
Qed.

(** X2.  Alternatives can be grouped: [choice(ps + qs)] does, on every
    cursor, what the choice between [choice(ps)] and [choice(qs)] does,
    down to the message of the final mismatch. *)
Theorem choice_append (ps qs : list Parser) (st : ParserState) :
  choice (ps ++ qs) st = choice [choice ps; choice qs] st.
Proof.
  induction ps as [|p ps IH].
  - cbn [app choice]. fold (no_alternative st).
    destruct (choice qs st) as [next|[m|m|cls]|] eqn:E; try reflexivity.
    now rewrite (choice_mismatch_is_aggregate qs st m E).
  - cbn [app]. cbn [choice] in *.
    destruct (p st) as [next|[m|m|cls]|]; try reflexivity. exact IH.
Qed.

(** ** The composition operators *)

(** X3.  [chain] is a monadic bind with [succeed] as its unit:
    [succeed(v).chain(f)] runs [f(v)] on the cursor it was given with [v]
    as result, and chaining is associative, [p.chain(f).chain(g)] being
    [p.chain(lambda v: f(v).chain(g))] on every cursor, failures
    included. *)
Theorem chain_monad_laws (p : Parser) (f g : Value -> Result Parser) (v : Value)
    (st : ParserState) :
  Parser.chain (succeed v) f st
  = match f v with
    | Return q => q (mkParserState (source st) (index st) v)
    | Throw e => Raise e
    end
  /\ Parser.chain (Parser.chain p f) g st
     = Parser.chain p (fun v =>
         match f v with
         | Return q => Return (Parser.chain q g)
         | Throw e => Throw e
         end) st.
Proof.
  split; [reflexivity|].
  unfold Parser.chain. destruct (p st) as [st1|e|]; try reflexivity.
  destruct (f (result st1)) as [q|e]; reflexivity.
Qed.

(** X4.  [map] never moves the cursor: a mapped parser succeeds exactly
    where the parser does, at the index the parser reached, with the
    mapped result.  Two maps fuse into the map of the composed function,
    and [p.map(f)] is [p.chain(lambda v: succeed(f(v)))]. *)
Theorem map_keeps_position (p : Parser) (f g : Value -> Result Value)
    (st : ParserState) :
  (forall st', Parser.map p f st = Ok st' <->
     exists st1 w, p st = Ok st1 /\ f (result st1) = Return w
                   /\ st' = mkParserState (source st1) (index st1) w)
  /\ Parser.map (Parser.map p f) g st
     = Parser.map p (fun v => match f v with Return w => g w | Throw e => Throw e end) st
  /\ Parser.map p f st
     = Parser.chain p (fun v =>
         match f v with
         | Return w => Return (succeed w)
         | Throw e => Throw e
         end) st.
Proof.
  split; [|split].
  - intros st'. unfold Parser.map. split.
    + destruct (p st) as [st1|e|]; try discriminate.
      destruct (f (result st1)) as [w|e] eqn:Ef; try discriminate.
      intros H. injection H as <-. now exists st1, w.
    + intros (st1 & w & -> & -> & ->). reflexivity.
  - unfold Parser.map. destruct (p st) as [st1|e|]; try reflexivity.
    cbn [result update index]. destruct (f (result st1)) as [w|e]; reflexivity.
  - unfold Parser.map, Parser.chain. destruct (p st) as [st1|e|]; try reflexivity.
    destruct (f (result st1)) as [w|e]; reflexivity.
Qed.

(** The tagged 4-bit field of the grammar on the byte [0x45]: index 4, as
    after [uint(4)], and the tagged value as result. *)
Lemma map_keeps_position_witness :
  exists st1 w,
    uint 4 (mkParserState (Bytes [x45]) 0 VNone) = Ok st1
    /\ tagged "Version" (result st1) = Return w
    /\ mkParserState (Bytes [x45]) 4 (tag (lit "Version") (VInt 4))
       = mkParserState (source st1) (index st1) w.
Proof.
  apply (proj1 (proj1 (map_keeps_position (uint 4) (tagged "Version") (tagged "Version")
                        (mkParserState (Bytes [x45]) 0 VNone)) _)).
  reflexivity.
Defined.

(** X5.  [error_map] recovers from a mismatch only: a success passes
    through untouched, a mismatch becomes a success at the index of the
    cursor the parser was given with the handler's value as result, and
    any other failure (end of input among them) escapes.  With a handler
    that always returns, the mapped parser never mismatches, so a [choice]
    never gets past it to a later alternative. *)
Theorem error_map_recovers_mismatch_only (p : Parser)
    (f : PyStr -> Z -> Result Value) (st : ParserState) :
  (forall st', p st = Ok st' -> Parser.error_map p f st = Ok st')
  /\ (forall msg v, p st = Raise (ParseError msg) -> f msg (index st) = Return v ->
        Parser.error_map p f st = Ok (mkParserState (source st) (index st) v))
  /\ (forall e, p st = Raise e -> is_mismatch e = false ->
        Parser.error_map p f st = Raise e)
  /\ ((forall msg i, exists v, f msg i = Return v) ->
        forall rest, choice (Parser.error_map p f :: rest) st = Parser.error_map p f st).
Proof.
  unfold Parser.error_map. repeat split.
  - now intros st' ->.
  - now intros msg v -> ->.
  - intros e -> He. destruct e; [discriminate | reflexivity | reflexivity].
  - intros Htotal rest. cbn [choice].
    destruct (p st) as [st1|[m|m|cls]|]; try reflexivity.
    destruct (Htotal m (index st)) as [v ->]. reflexivity.
Qed.

(** [zero] mapped to a default at bit 0 of [0x80], where it mismatches: the
    default is returned at index 0 and [choice] stops there; past the end
    the end of input escapes. *)
Lemma error_map_recovers_mismatch_only_witness :
  let f := fun (_ : PyStr) (_ : Z) => Return (VInt 7) in
  Parser.error_map zero f (mkParserState (Bytes [x80]) 0 VNone)
  = Ok (mkParserState (Bytes [x80]) 0 (VInt 7))
  /\ choice [Parser.error_map zero f; bit] (mkParserState (Bytes [x80]) 0 VNone)
     = Parser.error_map zero f (mkParserState (Bytes [x80]) 0 VNone)
  /\ Parser.error_map zero f (mkParserState (Bytes [x80]) 8 VNone)
     = Raise (EOFError EOF_MESSAGE).
Proof.
  intros f.
  destruct (error_map_recovers_mismatch_only zero f (mkParserState (Bytes [x80]) 0 VNone))
    as (_ & Hrec & _ & Hchoice).
  destruct (error_map_recovers_mismatch_only zero f (mkParserState (Bytes [x80]) 8 VNone))
    as (_ & _ & Hesc & _).
  split; [|split].
  - apply (Hrec (lit "Expected a zero, but got a one at index 0")); reflexivity.
  - apply Hchoice. intros msg i. now exists (VInt 7).
  - apply Hesc; reflexivity.
Defined.

(** X6.  [between(l, r)(content)] matches [l], [content] and [r] in turn
    and yields the result of [content] alone, at the cursor [r] reached;
    a failure of any of the three is the failure of the whole. *)
Theorem between_yields_content (l r c : Parser) (st : ParserState) :
  (forall s1 s2 s3, l st = Ok s1 -> c s1 = Ok s2 -> r s2 = Ok s3 ->
     between l r c st = Ok (mkParserState (source s3) (index s3) (result s2)))
  /\ (forall e, l st = Raise e -> between l r c st = Raise e)
  /\ (forall s1 e, l st = Ok s1 -> c s1 = Raise e -> between l r c st = Raise e)
  /\ (forall s1 s2 e, l st = Ok s1 -> c s1 = Ok s2 -> r s2 = Raise e ->
        between l r c st = Raise e).
Proof.
  unfold between, Parser.map, sequence_of. cbn [sequence_of_loop]. repeat split.
  - now intros s1 s2 s3 -> -> ->.
  - now intros e ->.
  - now intros s1 e -> ->.
  - now intros s1 s2 e -> -> ->.
Qed.

(** Four bits between a [zero] and a [one]: on the byte [0x4f], the bits
    [0 1001 1 11], the content 9 is returned at index 6; on [0x4b], the
    bits [0 1001 0 11], the closing [one] mismatches at index 5. *)
Lemma between_yields_content_witness :
  between zero one (uint 4) (mkParserState (Bytes [x4f]) 0 VNone)
  = Ok (mkParserState (Bytes [x4f]) 6 (VInt 9))
  /\ between zero one (uint 4) (mkParserState (Bytes [x4b]) 0 VNone)
     = Raise (ParseError (lit "Expected a one, but got a zero at index 5")).
Proof.
  destruct (between_yields_content zero one (uint 4) (mkParserState (Bytes [x4f]) 0 VNone))
    as (Hok & _).
  destruct (between_yields_content zero one (uint 4) (mkParserState (Bytes [x4b]) 0 VNone))
    as (_ & _ & _ & Hr).
  split.
  - apply (Hok (mkParserState (Bytes [x4f]) 1 (VInt 0))
               (mkParserState (Bytes [x4f]) 5 (VInt 9))
               (mkParserState (Bytes [x4f]) 6 (VInt 1))); reflexivity.
  - apply (Hr (mkParserState (Bytes [x4b]) 1 (VInt 0))
              (mkParserState (Bytes [x4b]) 5 (VInt 9))); reflexivity.
Defined.

(** ** Repetition *)

Lemma repeat_loop_propagates p st rs st' cls :
  iterates p st rs st' -> p st' = Raise (OtherError cls) ->
  forall fuel acc, (List.length rs < fuel)%nat ->
  repeat_loop fuel p st acc = Raise (OtherError cls).
Proof.
  induction 1 as [st | st st1 rs st' Hp _ IH]; intros Hexc fuel acc Hfuel.
  - destruct fuel as [|fuel]; [simpl in Hfuel; lia|].
    cbn [repeat_loop]. now rewrite Hexc.
  - destruct fuel as [|fuel]; [simpl in Hfuel; lia|].
    cbn [repeat_loop]. rewrite Hp. apply IH; auto. simpl in Hfuel. lia.
Qed.

(** X7.  [many1] demands one match: a first attempt that fails makes
    [many1] fail with that same failure.  After a first success it
    collects, like [many], the results of all successive matches up to the
    first failure of either kind, and returns them at the cursor the last
    match reached. *)
Theorem many1_requires_first_match (fuel : nat) (p : Parser) (st : ParserState) :
  (forall e, p st = Raise e -> many1 fuel p st = Raise e)
  /\ (forall st1 rs st',
        p st = Ok st1 -> iterates p st1 rs st' -> stops p st' ->
        (List.length rs < fuel)%nat ->
        many1 fuel p st
        = Ok (mkParserState (source st') (index st') (VList (result st1 :: rs)))
        /\ many fuel p st = many1 fuel p st).
Proof.
  split.
  - intros e H. unfold many1. now rewrite H.
  - intros st1 rs st' Hp Hit Hstop Hfuel. unfold many1, many. rewrite Hp.
    split; [|reflexivity].
    now rewrite (repeat_loop_collects p st1 rs st').
Qed.

(** [many1(one)] on the bits [1100 0000] and on [0000 0000]. *)
Lemma many1_requires_first_match_witness :
  many1 3 one (mkParserState (Bytes [xc0]) 0 VNone)
  = Ok (mkParserState (Bytes [xc0]) 2 (VList [VInt 1; VInt 1]))
  /\ many1 3 one (mkParserState (Bytes [x00]) 0 VNone)
     = Raise (ParseError (lit "Expected a one, but got a zero at index 0")).
Proof.
  split.
  - refine (proj1 (proj2 (many1_requires_first_match 3 one
                            (mkParserState (Bytes [xc0]) 0 VNone))
                     (mkParserState (Bytes [xc0]) 1 (VInt 1)) [VInt 1]
                     (mkParserState (Bytes [xc0]) 2 (VInt 1)) _ _ _ _)).
    + reflexivity.
    + apply (iterates_step one _ (mkParserState (Bytes [xc0]) 2 (VInt 1)));
        [reflexivity | apply iterates_done].
    + eexists. left. reflexivity.
    + simpl. lia.
  - apply (proj1 (many1_requires_first_match 3 one (mkParserState (Bytes [x00]) 0 VNone))).
    reflexivity.
Defined.

(** X8.  [many] treats the first attempt and the later ones differently.
    The bare [except:] around the first attempt swallows every exception,
    so [many(p)] succeeds, on the cursor it was given, even when [p]
    raises an error that is neither a mismatch nor end of input; once [p]
    has matched, such an error raised by a later attempt escapes from
    [many], and only a mismatch or the end of input ends the loop with the
    results collected. *)
Theorem many_swallows_first_exception_only (fuel : nat) (p : Parser)
    (st : ParserState) :
  (forall cls, p st = Raise (OtherError cls) -> many fuel p st = Ok st)
  /\ (forall st1 rs st' cls,
        p st = Ok st1 -> iterates p st1 rs st' -> p st' = Raise (OtherError cls) ->
        (List.length rs < fuel)%nat ->
        many fuel p st = Raise (OtherError cls))
  /\ (forall st1 rs st',
        p st = Ok st1 -> iterates p st1 rs st' -> stops p st' ->
        (List.length rs < fuel)%nat ->
        many fuel p st
        = Ok (mkParserState (source st') (index st') (VList (result st1 :: rs)))).
Proof.
  split; [|split].
  - intros cls H. now apply (many_first_failure fuel p st (OtherError cls)).
  - intros st1 rs st' cls Hp Hit Hexc Hfuel. unfold many. rewrite Hp.
    now apply (repeat_loop_propagates p st1 rs st').
  - intros st1 rs st' Hp Hit Hstop Hfuel. now apply (many_collects fuel p st st1 rs st').
Qed.

(** [int(0)] raises [IndexError] everywhere, and [many(int(0))] succeeds.
    A parser that reads a bit and raises on a 0: on the bits [10...] it
    matches once, and [many] then raises. *)
Lemma many_swallows_first_exception_only_witness :
  let picky := Parser.chain bit (fun v =>
                 if eq_int v 1 then Return (succeed v) else Throw IndexError) in
  many 3 (int 0) (mkParserState (Bytes [x80]) 0 VNone)
  = Ok (mkParserState (Bytes [x80]) 0 VNone)
  /\ many 3 picky (mkParserState (Bytes [x80]) 0 VNone) = Raise IndexError.
Proof.
  intros picky. split.
  - apply (proj1 (many_swallows_first_exception_only 3 (int 0)
                    (mkParserState (Bytes [x80]) 0 VNone)) "IndexError"%string).
    reflexivity.
  - apply (proj1 (proj2 (many_swallows_first_exception_only 3 picky
                           (mkParserState (Bytes [x80]) 0 VNone)))
             (mkParserState (Bytes [x80]) 1 (VInt 1)) []
             (mkParserState (Bytes [x80]) 1 (VInt 1)) "IndexError"%string).
    + reflexivity.
    + apply iterates_done.
    + reflexivity.
    + simpl. lia.
Defined.

(** ** The bit primitives *)

(** X9.  On a cursor inside a byte buffer, [zero] and [one] split what
    [bit] does: the one that agrees with the bit under the cursor returns
    exactly what [bit] returns, the other one mismatches, so that
    [choice([zero, one])] is [bit] there. *)
Theorem zero_one_split_bit (st : ParserState) (bs : list byte) :
  source st = Bytes bs -> 0 <= index st < 8 * len (source st) ->
  ((source_bit bs (index st) = 0 /\ zero st = bit st /\ mismatches one st)
   \/ (source_bit bs (index st) = 1 /\ one st = bit st /\ mismatches zero st))
  /\ choice [zero; one] st = bit st
  /\ bit st = Ok (mkParserState (source st) (index st + 1)
                    (VInt (source_bit bs (index st)))).
Proof.
  intros Hs Hi.
  pose proof (fetch_bit_in_range st bs Hs Hi) as Hf.
  pose proof (bit_in_range st bs Hs Hi) as Hb.
  assert (Hcases :
    (source_bit bs (index st) = 0 /\ zero st = bit st /\ mismatches one st)
    \/ (source_bit bs (index st) = 1 /\ one st = bit st /\ mismatches zero st)).
  { destruct (source_bit_is_bit bs (index st)) as [H0|H1]; [left|right].
    - split; [exact H0|]. unfold zero, one, bit, mismatches. rewrite Hf, H0.
      split; [reflexivity | eexists; reflexivity].
    - split; [exact H1|]. unfold zero, one, bit, mismatches. rewrite Hf, H1.
      split; [reflexivity | eexists; reflexivity]. }
  split; [exact Hcases|]. split; [|exact Hb].
  cbn [choice].
  destruct Hcases as [(_ & Hz & _) | (_ & Ho & [msg Hz])].
  - rewrite Hz, Hb. reflexivity.
  - rewrite Hz, Ho, Hb. reflexivity.
Qed.

(** Bit 1 of the byte [0x40] is set. *)
Lemma zero_one_split_bit_witness :
  let st := mkParserState (Bytes [x40]) 1 VNone in
  one st = bit st /\ mismatches zero st /\ choice [zero; one] st = bit st.
Proof.
  intros st.
  destruct (zero_one_split_bit st [x40]) as ([(H0 & _) | (_ & Ho & Hz)] & Hc & _);
    [reflexivity | simpl; lia | discriminate H0 | ].
  split; [exact Ho|]. split; [exact Hz | exact Hc].
Defined.



(** ** The unsigned decoder *)

Lemma uint_short st bs n :
  1 <= n -> source st = Bytes bs -> 0 <= index st ->
  8 * len (source st) < index st + n ->
  uint n st = Raise (EOFError EOF_MESSAGE).
Proof.
  intros Hn Hs Hlo Hhi. unfold uint, Parser.map, sequence_of.
  rewrite (sequence_of_loop_bits_short bs); auto; [lia|].
  rewrite Z2Nat.id; lia.
Qed.



Lemma bits_from_app bs n m : forall i,
  bits_from bs i (n + m) = bits_from bs i n ++ bits_from bs (i + Z.of_nat n) m.
Proof.
  induction n as [|n IH]; intros i.
  - cbn [Nat.add bits_from app]. f_equal. lia.
  - cbn [Nat.add bits_from app]. rewrite IH. do 3 f_equal. lia.
Qed.

Lemma big_endian_app hi lo :
  big_endian (hi ++ lo) = big_endian hi * 2 ^ Z.of_nat (List.length lo) + big_endian lo.
Proof.
  induction hi as [|b hi IH]; [cbn; lia|].
  cbn [app big_endian]. rewrite IH, length_app, Nat2Z.inj_add, Z.pow_add_r by lia.
  lia.
Qed.

(** X12.  Reading a field in two parts: where [uint(n + m)] succeeds,
    [uint(n)] followed by [uint(m)] succeeds too and ends at the same
    index, and the value of the whole field is the first part shifted left
    by [m] bits plus the second part. *)
Theorem uint_splits (n m : Z) (st : ParserState) (bs : list byte) :
  0 <= n -> 0 <= m -> source st = Bytes bs -> 0 <= index st ->
  index st + (n + m) <= 8 * len (source st) ->
  exists hi lo,
    sequence_of [uint n; uint m] st
    = Ok (mkParserState (source st) (index st + (n + m)) (VList [VInt hi; VInt lo]))
    /\ uint (n + m) st
       = Ok (mkParserState (source st) (index st + (n + m)) (VInt (hi * 2 ^ m + lo)))
    /\ 0 <= lo < 2 ^ m.
Proof.
  intros Hn Hm Hs Hlo Hhi.
  exists (big_endian (bits_from bs (index st) (Z.to_nat n))),
         (big_endian (bits_from bs (index st + n) (Z.to_nat m))).
  split; [|split].
  - unfold sequence_of. cbn [sequence_of_loop].
    rewrite (uint_reads st bs) by (auto; lia).
    rewrite (uint_reads _ bs) by (cbn [source index update]; auto; lia).
    cbn [update source index result app].
    now replace (index st + n + m) with (index st + (n + m)) by lia.
  - rewrite (uint_reads st bs) by (auto; lia).
    rewrite Z2Nat.inj_add, bits_from_app, big_endian_app by lia.
    rewrite bits_from_length, !Z2Nat.id by lia. reflexivity.
  - pose proof (big_endian_range _ (bits_from_is_bit bs (Z.to_nat m) (index st + n))) as H.
    now rewrite bits_from_length, Z2Nat.id in H by lia.
Qed.

(** The byte [0x45] as one 8-bit field and as two 4-bit fields. *)
Lemma uint_splits_witness :
  exists hi lo,
    sequence_of [uint 4; uint 4] (mkParserState (Bytes [x45]) 0 VNone)
    = Ok (mkParserState (Bytes [x45]) (0 + (4 + 4)) (VList [VInt hi; VInt lo]))
    /\ uint (4 + 4) (mkParserState (Bytes [x45]) 0 VNone)
       = Ok (mkParserState (Bytes [x45]) (0 + (4 + 4)) (VInt (hi * 2 ^ 4 + lo)))
    /\ 0 <= lo < 2 ^ 4.
Proof.
  apply (uint_splits 4 4 (mkParserState (Bytes [x45]) 0 VNone) [x45]);
    [lia | lia | reflexivity | simpl; lia | simpl; lia].
Defined.

(** ** Fields that lie on byte boundaries *)

Lemma source_bit_aligned bs k b j :
  nth_error bs k = Some b -> 0 <= j < 8 ->
  source_bit bs (8 * Z.of_nat k + j) = Z.b2z (Z.testbit (byte_val b) (7 - j)).
Proof.
  intros Hb Hj. unfold source_bit.
  replace ((8 * Z.of_nat k + j) / 8) with (Z.of_nat k)
    by (apply (Z.div_unique _ 8 _ j); lia).
  replace ((8 * Z.of_nat k + j) mod 8) with j
    by (apply (Z.mod_unique _ 8 (Z.of_nat k) j); lia).
  now rewrite Nat2Z.id, Hb.
Qed.

Lemma byte_of_its_bits b :
  big_endian (List.map (fun j => Z.b2z (Z.testbit (byte_val b) (7 - j)))
                [0; 1; 2; 3; 4; 5; 6; 7]) = byte_val b.
Proof. destruct b; vm_compute; reflexivity. Qed.

Lemma stream_byte_aligned bs k b :
  nth_error bs k = Some b -> stream_byte bs (8 * Z.of_nat k) = byte_val b.
Proof.
  intros Hb. rewrite <- (byte_of_its_bits b). unfold stream_byte. f_equal.
  cbn [bits_from List.map].
  rewrite <- (Z.add_0_r (8 * Z.of_nat k)) at 1.
  rewrite <- !Z.add_assoc. cbn [Z.add Pos.add Pos.succ].
  repeat (f_equal; [apply source_bit_aligned; [assumption | lia] |]).
  f_equal. apply source_bit_aligned; [assumption | lia].
Qed.

Lemma stream_bytes_aligned chunk : forall before after,
  stream_bytes (before ++ chunk ++ after) (8 * Z.of_nat (List.length before))
    (List.length chunk)
  = List.map byte_val chunk.
Proof.
  induction chunk as [|b chunk IH]; intros before after; [reflexivity|].
  cbn [List.length stream_bytes List.map]. f_equal.
  - apply stream_byte_aligned. now rewrite nth_error_app2, Nat.sub_diag by lia.
  - specialize (IH (before ++ [b]) after).
    rewrite <- app_assoc in IH. cbn [app] in IH.
    rewrite length_app in IH. cbn [List.length] in IH.
    replace (8 * Z.of_nat (List.length before) + 8)
      with (8 * Z.of_nat (List.length before + 1)) by lia.
    exact IH.
Qed.

Lemma stream_bytes_value bs n : forall i,
  big_endian (bits_from bs i (8 * n))
  = fold_left (fun acc v => 256 * acc + v) (stream_bytes bs i n) 0.
Proof.
  assert (Hshift : forall l a,
            fold_left (fun acc v => 256 * acc + v) l a
            = a * 2 ^ Z.of_nat (8 * List.length l)
              + fold_left (fun acc v => 256 * acc + v) l 0).
  { induction l as [|v l IHl]; intros a; [cbn; lia|].
    cbn [fold_left List.length]. rewrite (IHl (256 * a + v)), (IHl (256 * 0 + v)).
    replace (8 * S (List.length l))%nat with (8 + 8 * List.length l)%nat by lia.
    rewrite Nat2Z.inj_add, Z.pow_add_r by lia. change (2 ^ Z.of_nat 8) with 256. lia. }
  assert (Hlen : forall m j, List.length (stream_bytes bs j m) = m).
  { induction m as [|m IHm]; intros j; cbn [stream_bytes List.length]; [|rewrite IHm];
      reflexivity. }
  induction n as [|n IH]; intros i; [reflexivity|].
  replace (8 * S n)%nat with (8 + 8 * n)%nat by lia.
  rewrite bits_from_app, big_endian_app, bits_from_length, IH.
  cbn [stream_bytes fold_left]. rewrite (Hshift _ (256 * 0 + stream_byte bs i)), Hlen.
  change (Z.of_nat 8) with 8. unfold stream_byte. lia.
Qed.

Lemma be_bytes_values chunk :
  be_bytes chunk = fold_left (fun acc v => 256 * acc + v) (List.map byte_val chunk) 0.
Proof.
  unfold be_bytes. generalize 0.
  induction chunk as [|b chunk IH]; intros a; [reflexivity|].
  cbn [fold_left List.map]. apply IH.
Qed.

Lemma whole_bytes_value before chunk after :
  big_endian (bits_from (before ++ chunk ++ after) (8 * Z.of_nat (List.length before))
                (Z.to_nat (8 * Z.of_nat (List.length chunk))))
  = be_bytes chunk.
Proof.
  replace (Z.to_nat (8 * Z.of_nat (List.length chunk)))
    with (8 * List.length chunk)%nat by lia.
  now rewrite stream_bytes_value, stream_bytes_aligned, be_bytes_values.
Qed.

(** X13.  A field of whole bytes that starts on a byte boundary decodes to
    the big-endian integer of those bytes: on the buffer
    [before + chunk + after], [uint(8 * len(chunk))] applied at bit
    [8 * len(before)] returns [int.from_bytes(chunk, 'big')] and stops at
    the first bit of [after]. *)
Theorem uint_reads_whole_bytes (before chunk after : list byte) (r : Value) :
  uint (8 * Z.of_nat (List.length chunk))
    (mkParserState (Bytes (before ++ chunk ++ after))
       (8 * Z.of_nat (List.length before)) r)
  = Ok (mkParserState (Bytes (before ++ chunk ++ after))
          (8 * Z.of_nat (List.length before) + 8 * Z.of_nat (List.length chunk))
          (VInt (be_bytes chunk))).
Proof.
  rewrite (uint_reads _ (before ++ chunk ++ after));
    cbn [source index len]; rewrite ?length_app; try lia; [|reflexivity].
  unfold update. cbn [source]. now rewrite whole_bytes_value.
Qed.

(** X14.  The address fields of the IPv4 grammar render the four bytes
    they cover: on a byte boundary, [uint(32)] mapped through the address
    lambda yields the label tagged with the decimal values of the four
    bytes, in buffer order, joined by dots. *)
Theorem address_field_renders_octets (before after : list byte) (a b c d : byte)
    (label : String.string) (r : Value) :
  Parser.map (uint 32) (tagged_address label)
    (mkParserState (Bytes (before ++ [a; b; c; d] ++ after))
       (8 * Z.of_nat (List.length before)) r)
  = Ok (mkParserState (Bytes (before ++ [a; b; c; d] ++ after))
          (8 * Z.of_nat (List.length before) + 32)
          (tag (lit label)
             (VStr (join (lit ".")
                      (List.map (fun x => str_int (byte_val x)) [a; b; c; d]))))).
Proof.
  unfold Parser.map.
  rewrite (uint_reads _ (before ++ [a; b; c; d] ++ after));
    cbn [source index len]; rewrite ?length_app; cbn [List.length]; try lia;
    [|reflexivity].
  pose proof (whole_bytes_value before [a; b; c; d] after) as H.
  change (8 * Z.of_nat (List.length [a; b; c; d])) with 32 in H. rewrite H.
  cbn [result update index source]. unfold tagged_address, dotted_quad.
  pose proof (byte_val_range a) as Ra. pose proof (byte_val_range b) as Rb.
  pose proof (byte_val_range c) as Rc. pose proof (byte_val_range d) as Rd.
  unfold be_bytes. cbn [fold_left].
  set (v := 256 * (256 * (256 * (256 * 0 + byte_val a) + byte_val b) + byte_val c)
            + byte_val d).
  assert (Hv : 0 <= v < 2 ^ 32) by (subst v; change (2 ^ 32) with 4294967296; lia).
  destruct (Z.ltb_spec v 0) as [|_]; [lia|].
  destruct (Z.leb_spec (2 ^ 32) v) as [|_]; [lia|].
  cbn [orb List.map].
  assert (H24 : Z.shiftr v 24 = byte_val a).
  { rewrite Z.shiftr_div_pow2 by lia. change (2 ^ 24) with 16777216.
    symmetry. apply (Z.div_unique v _ _ (65536 * byte_val b + 256 * byte_val c + byte_val d));
      subst v; lia. }
  assert (H16 : Z.land (Z.shiftr v 16) 255 = byte_val b).
  { change 255 with (Z.ones 8). rewrite Z.land_ones, Z.shiftr_div_pow2 by lia.
    change (2 ^ 16) with 65536. change (2 ^ 8) with 256.
    replace (v / 65536) with (256 * byte_val a + byte_val b)
      by (apply (Z.div_unique v _ _ (256 * byte_val c + byte_val d)); subst v; lia).
    symmetry. apply (Z.mod_unique _ _ (byte_val a)); lia. }
  assert (H8 : Z.land (Z.shiftr v 8) 255 = byte_val c).
  { change 255 with (Z.ones 8). rewrite Z.land_ones, Z.shiftr_div_pow2 by lia.
    change (2 ^ 8) with 256.
    replace (v / 256) with (65536 * byte_val a + 256 * byte_val b + byte_val c)
      by (apply (Z.div_unique v _ _ (byte_val d)); subst v; lia).
    symmetry. apply (Z.mod_unique _ _ (256 * byte_val a + byte_val b)); lia. }
  assert (H00 : Z.land v 255 = byte_val d).
  { change 255 with (Z.ones 8). rewrite Z.land_ones by lia. change (2 ^ 8) with 256.
    symmetry.
    apply (Z.mod_unique _ _ (65536 * byte_val a + 256 * byte_val b + byte_val c));
      subst v; lia. }
  now rewrite H24, H16, H8, H00.
Qed.

(** ** Byte-exact matching, the other outcomes *)

Lemma raw_string_matches_stream literal encoded st bs :
  encode_utf8 literal = Return encoded ->
  source st = Bytes bs -> 0 <= index st ->
  index st + 8 * Z.of_nat (List.length encoded) <= 8 * len (source st) ->
  stream_bytes bs (index st) (List.length encoded) = List.map byte_val encoded ->
  raw_string literal st
  = Ok (mkParserState (source st) (index st + 8 * Z.of_nat (List.length encoded))
          (VList (List.map (fun b => VInt (byte_val b)) encoded))).
Proof.
  intros Henc Hs Hlo Hhi Hstream. unfold raw_string, sequence_of. rewrite Henc.
  rewrite <- (List.map_map byte_val expect_byte).
  rewrite <- (app_nil_r (List.map byte_val encoded)) at 1.
  destruct (sequence_of_loop_bytes bs (List.map byte_val encoded) [] st [])
    as [v ->]; rewrite ?length_map; auto.
  cbn [List.map sequence_of_loop update source index app].
  now rewrite List.map_map.
Qed.

(** X15.  [raw_string] accepts the encoding of its literal wherever it
    stands in the bit stream, on a byte boundary or not: when the bits
    from the cursor on spell the bytes of the encoded literal, it returns
    the list of those bytes and moves the cursor forward by eight bits per
    byte. *)
Theorem raw_string_accepts_literal (literal : PyStr) (encoded : list byte)
    (st : ParserState) (bs : list byte) :
  encode_utf8 literal = Return encoded ->
  source st = Bytes bs -> 0 <= index st ->
  index st + 8 * Z.of_nat (List.length encoded) <= 8 * len (source st) ->
  stream_bytes bs (index st) (List.length encoded) = List.map byte_val encoded ->
  raw_string literal st
  = Ok (mkParserState (source st) (index st + 8 * Z.of_nat (List.length encoded))
          (VList (List.map (fun b => VInt (byte_val b)) encoded))).
Proof. apply raw_string_matches_stream. Qed.

(** The literal "a", the byte [0x61], found four bits into the buffer
    [0x06 0x10]. *)
Lemma raw_string_accepts_literal_witness :
  raw_string (lit "a") (mkParserState (Bytes [x06; x10]) 4 VNone)
  = Ok (mkParserState (Bytes [x06; x10]) 12 (VList [VInt 97])).
Proof.
  refine (raw_string_accepts_literal (lit "a") [x61]
            (mkParserState (Bytes [x06; x10]) 4 VNone) [x06; x10] _ _ _ _ _);
    [reflexivity | reflexivity | simpl; lia | simpl; lia | reflexivity].
Defined.

(** X16.  Round trip with the encoder: on a buffer that holds the UTF-8
    encoding of the literal at a byte boundary, [raw_string(literal)]
    succeeds, returns the encoded bytes and stops right behind them. *)
Theorem raw_string_accepts_own_encoding (literal : PyStr)
    (before encoded after : list byte) (r : Value) :
  encode_utf8 literal = Return encoded ->
  raw_string literal
    (mkParserState (Bytes (before ++ encoded ++ after))
       (8 * Z.of_nat (List.length before)) r)
  = Ok (mkParserState (Bytes (before ++ encoded ++ after))
          (8 * Z.of_nat (List.length before) + 8 * Z.of_nat (List.length encoded))
          (VList (List.map (fun b => VInt (byte_val b)) encoded))).
Proof.
  intros Henc.
  apply (raw_string_matches_stream literal encoded
           (mkParserState (Bytes (before ++ encoded ++ after))
              (8 * Z.of_nat (List.length before)) r)
           (before ++ encoded ++ after));
    cbn [source index len]; rewrite ?length_app; auto; try lia.
  apply stream_bytes_aligned.
Qed.

(** A literal with a two-byte character, U+00E9, behind one other byte. *)
Lemma raw_string_accepts_own_encoding_witness :
  raw_string [233; 33] (mkParserState (Bytes ([x00] ++ [xc3; xa9; x21] ++ [xff])) 8 VNone)
  = Ok (mkParserState (Bytes ([x00] ++ [xc3; xa9; x21] ++ [xff])) 32
          (VList [VInt 195; VInt 169; VInt 33])).
Proof.
  apply (raw_string_accepts_own_encoding [233; 33] [x00] [xc3; xa9; x21] [xff] VNone).
  reflexivity.
Defined.

(** X17.  On an input that ends inside the literal, [raw_string] raises
    the end of input, not a mismatch: when the stream carries the first
    bytes [pre] of the encoded literal and fewer than eight bits follow
    them, the failure is [EOFError], so a [choice] does not try its
    remaining alternatives. *)
Theorem raw_string_truncated_input (literal : PyStr) (pre post : list byte) (b : byte)
    (st : ParserState) (bs : list byte) :
  encode_utf8 literal = Return (pre ++ b :: post) ->
  source st = Bytes bs -> 0 <= index st ->
  index st + 8 * Z.of_nat (List.length pre) <= 8 * len (source st) ->
  8 * len (source st) < index st + 8 * Z.of_nat (List.length pre) + 8 ->
  stream_bytes bs (index st) (List.length pre) = List.map byte_val pre ->
  raw_string literal st = Raise (EOFError EOF_MESSAGE)
  /\ forall rest, choice (raw_string literal :: rest) st = Raise (EOFError EOF_MESSAGE).
Proof.
  intros Henc Hs Hlo Hin Hout Hpre.
  assert (H : raw_string literal st = Raise (EOFError EOF_MESSAGE)).
  { unfold raw_string, sequence_of. rewrite Henc.
    rewrite <- (List.map_map byte_val expect_byte), List.map_app.
    destruct (sequence_of_loop_bytes bs (List.map byte_val pre)
                (List.map byte_val (b :: post)) st [])
      as [v ->]; rewrite ?length_map; auto.
    cbn [List.map sequence_of_loop]. unfold expect_byte at 1, Parser.chain.
    rewrite (uint_short _ bs); cbn [source index]; auto; lia. }
  split; [exact H|]. intros rest. cbn [choice]. now rewrite H.
Qed.

(** The literal "ab" against a buffer that holds "a" only. *)
Lemma raw_string_truncated_input_witness :
  raw_string (lit "ab") (mkParserState (Bytes [x61]) 0 VNone)
  = Raise (EOFError EOF_MESSAGE)
  /\ forall rest, choice (raw_string (lit "ab") :: rest) (mkParserState (Bytes [x61]) 0 VNone)
                  = Raise (EOFError EOF_MESSAGE).
Proof.
  refine (raw_string_truncated_input (lit "ab") [x61] [] x62
            (mkParserState (Bytes [x61]) 0 VNone) [x61] _ _ _ _ _ _);
    [reflexivity | reflexivity | simpl; lia | simpl; lia | simpl; lia | reflexivity].
Defined.

(** ** Reading a buffer to its end *)

Lemma iterates_bits bs n : forall st,
  source st = Bytes bs -> 0 <= index st ->
  index st + Z.of_nat n <= 8 * len (source st) ->
  exists v,
    iterates bit st (List.map VInt (bits_from bs (index st) n))
      (mkParserState (source st) (index st + Z.of_nat n) v).
Proof.
  induction n as [|n IH]; intros st Hs Hlo Hhi.
  - exists (result st). cbn [bits_from List.map]. rewrite Z.add_0_r.
    destruct st. apply iterates_done.
  - destruct (IH (update st (index st + 1) (VInt (source_bit bs (index st)))))
      as [v Hv]; cbn [source index update]; auto; try lia.
    exists v. cbn [bits_from List.map].
    replace (index st + Z.of_nat (S n)) with (index st + 1 + Z.of_nat n) by lia.
    apply (iterates_step bit st (update st (index st + 1) (VInt (source_bit bs (index st)))));
      [apply (bit_in_range st bs); auto; lia | exact Hv].
Qed.

(** X18.  The loop of [many] ends on finite input: [many(bit)], applied
    inside a byte buffer, reads every remaining bit, stops at the end of
    input that the next attempt raises, and returns all the bits read with
    the cursor at the end of the buffer. *)
Theorem many_bit_reads_to_the_end (bs : list byte) (i : Z) (r : Value) (fuel : nat) :
  0 <= i < 8 * Z.of_nat (List.length bs) ->
  (Z.to_nat (8 * Z.of_nat (List.length bs) - i) <= fuel)%nat ->
  many fuel bit (mkParserState (Bytes bs) i r)
  = Ok (mkParserState (Bytes bs) (8 * Z.of_nat (List.length bs))
          (VList (List.map VInt
                    (bits_from bs i (Z.to_nat (8 * Z.of_nat (List.length bs) - i)))))).
Proof.
  intros Hi Hfuel.
  set (st := mkParserState (Bytes bs) i r).
  destruct (Z.to_nat (8 * Z.of_nat (List.length bs) - i)) as [|k] eqn:En; [lia|].
  set (st1 := update st (i + 1) (VInt (source_bit bs i))).
  assert (Hfirst : bit st = Ok st1) by (apply (bit_in_range st bs); [reflexivity | exact Hi]).
  destruct (iterates_bits bs k st1) as [v Hv];
    [reflexivity | subst st1 st; cbn [index update]; lia
    | subst st1 st; cbn [index source update len]; lia |].
  rewrite (many_collects fuel bit st st1 _ _ Hfirst Hv).
  - subst st1 st. cbn [source index update result bits_from List.map].
    now replace (i + 1 + Z.of_nat k) with (8 * Z.of_nat (List.length bs)) by lia.
  - exists EOF_MESSAGE. right. unfold bit. rewrite fetch_bit_past_end; [reflexivity|].
    subst st1 st. cbn [source index update len]. lia.
  - rewrite length_map, bits_from_length. lia.
Qed.

(** The sixteen bits of the buffer [0xa5 0x0f], from bit 12 on. *)
Lemma many_bit_reads_to_the_end_witness :
  many 4 bit (mkParserState (Bytes [xa5; x0f]) 12 VNone)
  = Ok (mkParserState (Bytes [xa5; x0f]) 16 (VList [VInt 1; VInt 1; VInt 1; VInt 1])).
Proof.
  apply (many_bit_reads_to_the_end [xa5; x0f] 12 VNone 4); simpl; lia.
Defined.

(** ** The character primitives *)

Lemma target_of_text t k r :
  target (mkParserState (Text t) (Z.of_nat k) r) = Text (skipn k t).
Proof.
  unfold target, slice_from. cbn [source index].
  destruct (Z.ltb_spec (Z.of_nat k) 0) as [|_]; [lia|]. now rewrite Nat2Z.id.
Qed.

Lemma startswith_firstn prefix : forall s,
  startswith s prefix = true <-> firstn (List.length prefix) s = prefix.
Proof.
  induction prefix as [|p prefix IH]; intros s; [destruct s; now split|].
  destruct s as [|c s]; cbn [startswith List.length firstn]; [now split|].
  rewrite andb_true_iff, Z.eqb_eq, IH. split.
  - now intros [-> ->].
  - intros H. injection H as Hc Hp. now split.
Qed.

Lemma startswith_length prefix : forall s,
  startswith s prefix = true -> (List.length prefix <= List.length s)%nat.
Proof.
  induction prefix as [|p prefix IH]; intros s H; [cbn; lia|].
  destruct s as [|c s]; cbn [startswith] in H; [discriminate|].
  apply andb_true_iff in H as [_ H]. apply IH in H. cbn [List.length]. lia.
Qed.

Lemma string_on_text t k s r :
  string s (mkParserState (Text t) (Z.of_nat k) r)
  = if (List.length (skipn k t) <? List.length s)%nat then Raise (EOFError EOF_MESSAGE)
    else if startswith (skipn k t) s then
      Ok (mkParserState (Text t) (Z.of_nat k + Z.of_nat (List.length s)) (VStr s))
    else
      Raise (ParseError
        (QUOTE ++ firstn (List.length s) (skipn k t) ++ QUOTE ++ lit " at index "
           ++ str_int (Z.of_nat k) ++ lit " does not start with "
           ++ QUOTE ++ s ++ QUOTE ++ lit ".")).
Proof.
  unfold string. rewrite target_of_text. cbn [len index update source].
  destruct (Nat.ltb_spec (List.length (skipn k t)) (List.length s)) as [Hlt|Hge];
    destruct (Z.gtb_spec (Z.of_nat (List.length s)) (Z.of_nat (List.length (skipn k t))));
    try lia; reflexivity.
Qed.

(** X19.  [string(s)] on a text cursor looks at the remaining input
    first: when fewer characters remain than [s] has, it raises the end of
    input, whether or not what remains agrees with [s]; otherwise it
    succeeds, with [s] as result and the index moved by [len(s)], exactly
    when the remaining input starts with [s], and else raises a mismatch
    that quotes the first [len(s)] remaining characters, the index and
    [s]. *)
Theorem string_outcome (t s : PyStr) (k : nat) (r : Value) :
  let st := mkParserState (Text t) (Z.of_nat k) r in
  let remaining := skipn k t in
  ((List.length remaining < List.length s)%nat ->
     string s st = Raise (EOFError EOF_MESSAGE))
  /\ ((List.length s <= List.length remaining)%nat ->
        firstn (List.length s) remaining = s ->
        string s st
        = Ok (mkParserState (Text t) (Z.of_nat k + Z.of_nat (List.length s)) (VStr s)))
  /\ ((List.length s <= List.length remaining)%nat ->
        firstn (List.length s) remaining <> s ->
        string s st
        = Raise (ParseError
            (QUOTE ++ firstn (List.length s) remaining ++ QUOTE ++ lit " at index "
               ++ str_int (Z.of_nat k) ++ lit " does not start with "
               ++ QUOTE ++ s ++ QUOTE ++ lit "."))).
Proof.
  intros st remaining. subst st remaining. rewrite string_on_text.
  split; [|split].
  - intros Hlt. now apply Nat.ltb_lt in Hlt as ->.
  - intros Hge Heq. apply Nat.ltb_ge in Hge as ->.
    apply startswith_firstn in Heq as ->. reflexivity.
  - intros Hge Hne. apply Nat.ltb_ge in Hge as ->.
    destruct (startswith (skipn k t) s) eqn:E; [|reflexivity].
    apply startswith_firstn in E. contradiction.
Qed.

(** The literal "ab" inside "xabc", against "xac", and against "xz", where
    one character remains. *)
Lemma string_outcome_witness :
  string (lit "ab") (mkParserState (Text (lit "xabc")) 1 VNone)
  = Ok (mkParserState (Text (lit "xabc")) 3 (VStr (lit "ab")))
  /\ string (lit "ab") (mkParserState (Text (lit "xac")) 1 VNone)
     = Raise (ParseError (QUOTE ++ lit "ac" ++ QUOTE ++ lit " at index 1 does not start with "
                            ++ QUOTE ++ lit "ab" ++ QUOTE ++ lit "."))
  /\ string (lit "ab") (mkParserState (Text (lit "xz")) 1 VNone)
     = Raise (EOFError EOF_MESSAGE).
Proof.
  split; [|split].
  - apply (proj1 (proj2 (string_outcome (lit "xabc") (lit "ab") 1 VNone)));
      [simpl; lia | reflexivity].
  - apply (proj2 (proj2 (string_outcome (lit "xac") (lit "ab") 1 VNone)));
      [simpl; lia | discriminate].
  - apply (proj1 (string_outcome (lit "xz") (lit "ab") 1 VNone)). simpl. lia.
Defined.

Lemma firstn_app_split {A : Type} (a b l : list A) :
  firstn (List.length a + List.length b) l = a ++ b
  <-> firstn (List.length a) l = a /\ firstn (List.length b) (skipn (List.length a) l) = b.
Proof.
  revert l. induction a as [|x a IH]; intros l.
  - cbn [List.length Nat.add firstn skipn app]. tauto.
  - destruct l as [|y l]; cbn [List.length Nat.add firstn skipn app].
    + split; [discriminate | intros [H _]; discriminate].
    + split.
      * intros H. injection H as Hx H. apply IH in H as [H1 H2].
        split; [now f_equal | exact H2].
      * intros [H1 H2]. injection H1 as Hx H1.
        f_equal; [exact Hx | apply IH; now split].
Qed.

Lemma string_succeeds_iff t k s r st' :
  string s (mkParserState (Text t) (Z.of_nat k) r) = Ok st'
  <-> startswith (skipn k t) s = true
      /\ st' = mkParserState (Text t) (Z.of_nat k + Z.of_nat (List.length s)) (VStr s).
Proof.
  rewrite string_on_text. split.
  - destruct (_ <? _)%nat; [discriminate|].
    destruct (startswith (skipn k t) s); [|discriminate].
    intros H. injection H as <-. now split.
  - intros [E ->]. rewrite E.
    pose proof (startswith_length _ _ E) as Hl.
    destruct (Nat.ltb_spec (List.length (skipn k t)) (List.length s)); [lia|].
    reflexivity.
Qed.

Lemma string_pair_succeeds_iff t k a b r st' :
  sequence_of [string a; string b] (mkParserState (Text t) (Z.of_nat k) r) = Ok st'
  <-> startswith (skipn k t) a = true
      /\ startswith (skipn (List.length a) (skipn k t)) b = true
      /\ st' = mkParserState (Text t) (Z.of_nat k + Z.of_nat (List.length (a ++ b)))
                 (VList [VStr a; VStr b]).
Proof.
  unfold sequence_of. cbn [sequence_of_loop].
  rewrite skipn_skipn, (Nat.add_comm (List.length a) k), length_app, Nat2Z.inj_add, Z.add_assoc.
  destruct (string a (mkParserState (Text t) (Z.of_nat k) r)) as [s1|e|] eqn:E1.
  - apply string_succeeds_iff in E1 as [Ea ->]. rewrite <- Nat2Z.inj_add.
    destruct (string b (mkParserState (Text t) (Z.of_nat (k + List.length a)) (VStr a)))
      as [s2|e|] eqn:E2.
    + apply string_succeeds_iff in E2 as [Eb ->].
      cbn [update source index result app]. rewrite Nat2Z.inj_add. split.
      * intros H. injection H as <-. auto.
      * now intros (_ & _ & ->).
    + split; [discriminate|]. intros (_ & Eb & _).
      assert (H : string b (mkParserState (Text t) (Z.of_nat (k + List.length a)) (VStr a))
                  = Ok (mkParserState (Text t)
                          (Z.of_nat (k + List.length a) + Z.of_nat (List.length b)) (VStr b)))
        by now apply string_succeeds_iff.
      congruence.
    + split; [discriminate|]. intros (_ & Eb & _).
      assert (H : string b (mkParserState (Text t) (Z.of_nat (k + List.length a)) (VStr a))
                  = Ok (mkParserState (Text t)
                          (Z.of_nat (k + List.length a) + Z.of_nat (List.length b)) (VStr b)))
        by now apply string_succeeds_iff.
      congruence.
  - split; [discriminate|]. intros (Ea & _).
    assert (H : string a (mkParserState (Text t) (Z.of_nat k) r)
                = Ok (mkParserState (Text t) (Z.of_nat k + Z.of_nat (List.length a)) (VStr a)))
      by now apply string_succeeds_iff.
    congruence.
  - split; [discriminate|]. intros (Ea & _).
    assert (H : string a (mkParserState (Text t) (Z.of_nat k) r)
                = Ok (mkParserState (Text t) (Z.of_nat k + Z.of_nat (List.length a)) (VStr a)))
      by now apply string_succeeds_iff.
    congruence.
Qed.

(** X20.  Literals concatenate: on a text cursor, [string(a + b)]
    succeeds exactly when [string(a)] followed by [string(b)] succeeds,
    and both end at the same index, [len(a + b)] characters on. *)
Theorem string_concatenates (t a b : PyStr) (k : nat) (r : Value) :
  let st := mkParserState (Text t) (Z.of_nat k) r in
  let final := Z.of_nat k + Z.of_nat (List.length (a ++ b)) in
  ((exists st', string (a ++ b) st = Ok st')
   <-> (exists st', sequence_of [string a; string b] st = Ok st'))
  /\ (forall st', string (a ++ b) st = Ok st' ->
        st' = mkParserState (Text t) final (VStr (a ++ b)))
  /\ (forall st', sequence_of [string a; string b] st = Ok st' ->
        st' = mkParserState (Text t) final (VList [VStr a; VStr b])).
Proof.
  intros st final. subst st final.
  assert (Hiff : startswith (skipn k t) (a ++ b) = true
                 <-> startswith (skipn k t) a = true
                     /\ startswith (skipn (List.length a) (skipn k t)) b = true).
  { rewrite !startswith_firstn, length_app. apply firstn_app_split. }
  split; [|split].
  - split; intros [st' H].
    + apply string_succeeds_iff in H as [E _]. apply Hiff in E as [Ea Eb].
      eexists. apply string_pair_succeeds_iff. eauto.
    + apply string_pair_succeeds_iff in H as (Ea & Eb & _).
      eexists. apply string_succeeds_iff. split; [apply Hiff; auto | reflexivity].
  - intros st' H. now apply string_succeeds_iff in H as [_ ->].
  - intros st' H. now apply string_pair_succeeds_iff in H as (_ & _ & ->).
Qed.

(** "ab" and "c" inside "xabcd". *)
Lemma string_concatenates_witness :
  string (lit "ab" ++ lit "c") (mkParserState (Text (lit "xabcd")) 1 VNone)
  = Ok (mkParserState (Text (lit "xabcd")) 4 (VStr (lit "abc")))
  /\ sequence_of [string (lit "ab"); string (lit "c")] (mkParserState (Text (lit "xabcd")) 1 VNone)
     = Ok (mkParserState (Text (lit "xabcd")) 4 (VList [VStr (lit "ab"); VStr (lit "c")])).
Proof.
  destruct (string_concatenates (lit "xabcd") (lit "ab") (lit "c") 1 VNone)
    as ([Hto _] & Hone & Htwo).
  assert (Hs : string (lit "ab" ++ lit "c") (mkParserState (Text (lit "xabcd")) 1 VNone)
               = Ok (mkParserState (Text (lit "xabcd")) 4 (VStr (lit "abc"))))
    by reflexivity.
  split; [exact Hs|].
  destruct (Hto (ex_intro _ _ Hs)) as [st' H].
  pose proof (Htwo _ H) as Hfinal. rewrite Hfinal in H. exact H.
Defined.

Lemma skipn_before {A : Type} (before rest : list A) :
  skipn (List.length before) (before ++ rest) = rest.
Proof. induction before as [|x before IH]; [reflexivity | exact IH]. Qed.

Lemma match_class_on_character f what before c after r :
  match_class f what (mkParserState (Text (before ++ c :: after))
                        (Z.of_nat (List.length before)) r)
  = if f c then
      Ok (mkParserState (Text (before ++ c :: after))
            (Z.of_nat (List.length before) + 1) (VStr [c]))
    else
      Raise (ParseError (lit "Couldn't match " ++ lit what ++ lit " at index "
                           ++ str_int (Z.of_nat (List.length before)) ++ lit ".")).
Proof.
  unfold match_class. rewrite target_of_text, skipn_before.
  cbn [len List.length index update source].
  destruct (Z.eqb_spec (Z.of_nat (S (List.length after))) 0) as [|_]; [lia|].
  reflexivity.
Qed.

Lemma match_class_at_end f what t r :
  match_class f what (mkParserState (Text t) (Z.of_nat (List.length t)) r)
  = Raise (EOFError EOF_MESSAGE).
Proof.
  unfold match_class. rewrite target_of_text, skipn_all. reflexivity.
Qed.

Lemma iterates_class f what run : forall before after r,
  forallb f run = true ->
  exists v,
    iterates (match_class f what)
      (mkParserState (Text (before ++ run ++ after)) (Z.of_nat (List.length before)) r)
      (characters run)
      (mkParserState (Text (before ++ run ++ after))
         (Z.of_nat (List.length before + List.length run)) v).
Proof.
  induction run as [|c run IH]; intros before after r Hall.
  - exists r. rewrite Nat.add_0_r. apply iterates_done.
  - cbn [forallb] in Hall. apply andb_true_iff in Hall as [Hc Hall].
    destruct (IH (before ++ [c]) after (VStr [c]) Hall) as [v Hv].
    rewrite <- app_assoc, length_app in Hv. cbn [app List.length] in Hv.
    exists v. cbn [characters List.map app List.length].
    replace (List.length before + S (List.length run))%nat
      with (List.length before + 1 + List.length run)%nat by lia.
    apply (iterates_step _ _
             (mkParserState (Text (before ++ c :: run ++ after))
                (Z.of_nat (List.length before + 1)) (VStr [c])));
      [|exact Hv].
    rewrite match_class_on_character, Hc.
    now replace (Z.of_nat (List.length before) + 1)
      with (Z.of_nat (List.length before + 1)) by lia.
Qed.

Lemma join_characters run :
  join_result (VList (characters run)) = Return (VStr run).
Proof.
  unfold join_result, characters.
  assert (Hs : strs_of (List.map (fun c => VStr [c]) run)
               = Some (List.map (fun c => [c]) run)).
  { induction run as [|c run IH]; [reflexivity|]. cbn [List.map strs_of]. now rewrite IH. }
  rewrite Hs. clear Hs. do 2 f_equal.
  assert (Hstep : forall c parts, join [] ([c] :: parts) = c :: join [] parts)
    by (intros c [|p parts]; reflexivity).
  induction run as [|c run IH]; [reflexivity|].
  cbn [List.map]. now rewrite Hstep, IH.
Qed.

Lemma joined_run_of_class fuel f what before run after r :
  run <> [] -> forallb f run = true ->
  match after with [] => True | c :: _ => f c = false end ->
  (List.length run <= fuel)%nat ->
  Parser.map (many1 fuel (match_class f what)) join_result
    (mkParserState (Text (before ++ run ++ after)) (Z.of_nat (List.length before)) r)
  = Ok (mkParserState (Text (before ++ run ++ after))
          (Z.of_nat (List.length before) + Z.of_nat (List.length run)) (VStr run)).
Proof.
  intros Hne Hall Hafter Hfuel.
  destruct run as [|c run]; [congruence|].
  cbn [forallb] in Hall. apply andb_true_iff in Hall as [Hc Hall].
  destruct (iterates_class f what run (before ++ [c]) after (VStr [c]) Hall) as [v Hv].
  rewrite <- app_assoc, length_app in Hv. cbn [app List.length] in Hv.
  unfold Parser.map, many1. cbn [app].
  rewrite match_class_on_character, Hc.
  replace (Z.of_nat (List.length before) + 1) with (Z.of_nat (List.length before + 1))
    by lia.
  rewrite (repeat_loop_collects _ _ _ _ Hv).
  - cbn [result update index source app].
    change (VStr [c] :: characters run) with (characters (c :: run)).
    rewrite join_characters. cbn [List.length].
    now replace (Z.of_nat (List.length before + 1 + List.length run))
      with (Z.of_nat (List.length before) + Z.of_nat (S (List.length run))) by lia.
  - destruct after as [|d after].
    + exists EOF_MESSAGE. right. rewrite app_nil_r.
      replace (List.length before + 1 + List.length run)%nat
        with (List.length (before ++ c :: run))
        by (rewrite length_app; cbn [List.length]; lia).
      apply match_class_at_end.
    + eexists. left.
      replace (before ++ c :: run ++ d :: after)
        with ((before ++ c :: run) ++ d :: after) by (now rewrite <- app_assoc).
      replace (List.length before + 1 + List.length run)%nat
        with (List.length (before ++ c :: run))
        by (rewrite length_app; cbn [List.length]; lia).
      rewrite match_class_on_character, Hafter. reflexivity.
  - unfold characters. rewrite length_map. cbn [List.length] in Hfuel. lia.
Qed.

(** X21.  [letters] and [digits] return the longest run: on a text cursor
    that stands at the start of a non-empty run of characters of the class
    ([str.isalpha] for [letters], [str.isdigit] for [digits]) which ends at
    the end of the text or in front of a character outside the class, the
    parser returns the run as one string and stops right behind it; the
    end of the text ends the run like any other character does. *)
Theorem letters_and_digits_take_the_run (isalpha isdigit : Z -> bool)
    (before run after : PyStr) (r : Value) (fuel : nat) :
  run <> [] -> (List.length run <= fuel)%nat ->
  let st := mkParserState (Text (before ++ run ++ after)) (Z.of_nat (List.length before)) r in
  let final := mkParserState (Text (before ++ run ++ after))
                 (Z.of_nat (List.length before) + Z.of_nat (List.length run)) (VStr run) in
  (forallb isalpha run = true ->
     match after with [] => True | c :: _ => isalpha c = false end ->
     letters fuel isalpha st = Ok final)
  /\ (forallb isdigit run = true ->
        match after with [] => True | c :: _ => isdigit c = false end ->
        digits fuel isdigit st = Ok final).
Proof.
  intros Hne Hfuel st final. split; intros Hall Hafter.
  - now apply joined_run_of_class.
  - now apply joined_run_of_class.
Qed.

(** With the ASCII letters and digits as classes: "ab" in "ab1" and at the
    end of "xab"; "12" in "12a". *)
Lemma letters_and_digits_take_the_run_witness :
  let alpha := fun c => (97 <=? c) && (c <=? 122) in
  let num := fun c => (48 <=? c) && (c <=? 57) in
  letters 2 alpha (mkParserState (Text (lit "ab1")) 0 VNone)
  = Ok (mkParserState (Text (lit "ab1")) 2 (VStr (lit "ab")))
  /\ letters 2 alpha (mkParserState (Text (lit "xab")) 1 VNone)
     = Ok (mkParserState (Text (lit "xab")) 3 (VStr (lit "ab")))
  /\ digits 2 num (mkParserState (Text (lit "12a")) 0 VNone)
     = Ok (mkParserState (Text (lit "12a")) 2 (VStr (lit "12"))).
Proof.
  intros alpha num. split; [|split].
  - apply (proj1 (letters_and_digits_take_the_run alpha num [] (lit "ab") (lit "1") VNone 2
                    ltac:(discriminate) ltac:(simpl; lia))); reflexivity.
  - apply (proj1 (letters_and_digits_take_the_run alpha num (lit "x") (lit "ab") [] VNone 2
                    ltac:(discriminate) ltac:(simpl; lia))); [reflexivity | exact I].
  - apply (proj2 (letters_and_digits_take_the_run alpha num [] (lit "12") (lit "a") VNone 2
                    ltac:(discriminate) ltac:(simpl; lia))); reflexivity.
Defined.

(** X23.  [letter] and [digit] look at one character: on the character
    [c] under a text cursor they return [c] as a one-character string and
    move the index by one when [c] is of the class, and else raise a
    mismatch that names the index; with the cursor at the end of the text
    they raise the end of input. *)
Theorem letter_and_digit_outcome (isalpha isdigit : Z -> bool)
    (before after : PyStr) (c : Z) (r : Value) :
  let t := before ++ c :: after in
  let k := Z.of_nat (List.length before) in
  letter isalpha (mkParserState (Text t) k r)
  = (if isalpha c then Ok (mkParserState (Text t) (k + 1) (VStr [c]))
     else Raise (ParseError (lit "Couldn't match letters at index " ++ str_int k ++ lit ".")))
  /\ digit isdigit (mkParserState (Text t) k r)
     = (if isdigit c then Ok (mkParserState (Text t) (k + 1) (VStr [c]))
        else Raise (ParseError (lit "Couldn't match digits at index " ++ str_int k ++ lit ".")))
  /\ letter isalpha (mkParserState (Text t) (Z.of_nat (List.length t)) r)
     = Raise (EOFError EOF_MESSAGE)
  /\ digit isdigit (mkParserState (Text t) (Z.of_nat (List.length t)) r)
     = Raise (EOFError EOF_MESSAGE).
Proof.
  intros t k. subst t k. unfold letter, digit.
  rewrite !match_class_on_character, !match_class_at_end.
  repeat split.
Qed.

(** ** The IPv4 grammar on a sample *)

(** The sample header with IHL 5, and with IHL 6 and eight option
    bytes. *)
Lemma ipv4_header_parser_result_witness :
  Parser.parse ipv4_header_parser (Bytes (sample_header x45))
  = Ok (mkParserState (Bytes (sample_header x45)) 160
          (VList (fixed_fields (sample_header x45))))
  /\ Parser.parse ipv4_header_parser (Bytes (sample_header x46 ++ sample_options))
     = Ok (mkParserState (Bytes (sample_header x46 ++ sample_options)) 224
             (VList (fixed_fields (sample_header x46 ++ sample_options) ++
                     [VStr (lit "Options");
                      VList (List.map VInt
                               (stream_bytes (sample_header x46 ++ sample_options) 160 8))]))).
Proof.
  split.
  - apply (proj1 (ipv4_header_parser_result (sample_header x45) ltac:(simpl; lia))).
    vm_compute. discriminate.
  - apply (proj2 (ipv4_header_parser_result (sample_header x46 ++ sample_options)
                    ltac:(simpl; lia))).
    + vm_compute. reflexivity.
    + simpl. lia.
Defined.

